(** * rescheduler: a run-coalescing scheduler

    Shallow embedding of [rescheduler.go] as an interleaving transition
    system.  Every statement of [Run], [threadRun] and [Wait] is one atomic
    step of the goroutine executing it; a schedule is the list of events in
    the order in which they happen, and any number of goroutines may call
    [Run] and [Wait] at any time.

    The caller-supplied [call] function is opaque: its execution is the
    interval between the step that enters it and the step at which it
    returns, and the two counters [started] and [finished] instrument it.  It
    is assumed to return without panicking; an execution that takes long is
    a worker that is not scheduled for long.

    [Wait] evaluates the field [r.done] without holding the mutex; the read
    is a step of its own, followed by the receive on the channel read. *)

From Stdlib Require Import ZArith Lia List Bool.
From stdpp Require Import base list numbers.

Open Scope Z_scope.

(** ** Data *)

(** [const ( R_RUNNING byte = 1; R_RERUN byte = 2 )] *)
Definition R_RUNNING : Z := 1.
Definition R_RERUN : Z := 2.

(** The three states of the instance, as values of the packed byte [me]. *)
Definition IDLE : Z := 0.
Definition RUNNING : Z := R_RUNNING.
Definition RUNNING_WITH_RERUN_PENDING : Z := Z.lor R_RUNNING R_RERUN.

(** A Go [byte]: results of byte arithmetic are reduced modulo 256. *)
Definition byte_wrap (z : Z) : Z := z mod 256.

(** A channel of [struct{}]: capacity, number of buffered elements, and
    whether it has been closed. *)
Record chan := Chan { ch_cap : nat; ch_len : nat; ch_closed : bool }.

(** [make(chan struct{}, n)] *)
Definition make_chan (n : nat) : chan := Chan n 0 false.

(** The effect of [close] on an open channel. *)
Definition close_chan (ch : chan) : chan := Chan (ch_cap ch) (ch_len ch) true.

(** Program points inside [Run] (source lines 42-56). *)
Inductive RunPc :=
| RunLock         (* 42: r.lock.Lock() *)
| RunCheck        (* 44: if r.me&R_RUNNING == 1 *)
| RunSetRerun     (* 46: r.me |= R_RERUN *)
| RunUnlockRerun  (* 47-48: r.lock.Unlock(); return *)
| RunSetRunning   (* 52: r.me = R_RUNNING *)
| RunUnlock       (* 53: r.lock.Unlock() *)
| RunGo.          (* 56: go r.threadRun() *)

(** Program points inside [threadRun] (source lines 65-83). *)
Inductive ThreadPc :=
| ThCall          (* 67: r.call() is entered *)
| ThInCall        (* 67: r.call() is executing and returns *)
| ThLock          (* 70: r.lock.Lock() *)
| ThCheck         (* 71: if r.me&R_RERUN == 0 *)
| ThClear         (* 73: r.me = 0 *)
| ThClose         (* 75: close(r.done) *)
| ThMake          (* 76: r.done = make(chan struct{}, 1) *)
| ThUnlockBreak   (* 77-78: r.lock.Unlock(); break *)
| ThFlip          (* 81: r.me ^= R_RERUN *)
| ThUnlockLoop.   (* 82: r.lock.Unlock(), back to the top of the loop *)

(** Program points inside [Wait] (source line 88): the field [r.done] is
    read first, then the goroutine receives from the channel it has read. *)
Inductive WaitPc :=
| WaitRead
| WaitRecv (c : nat).

(** What a goroutine is doing. *)
Inductive goroutine :=
| InRun (p : RunPc)
| InThreadRun (p : ThreadPc)
| InWait (p : WaitPc)
| Returned.

#[global] Instance RunPc_eq_dec : EqDecision RunPc.
Proof. solve_decision. Defined.
#[global] Instance ThreadPc_eq_dec : EqDecision ThreadPc.
Proof. solve_decision. Defined.
#[global] Instance WaitPc_eq_dec : EqDecision WaitPc.
Proof. solve_decision. Defined.
#[global] Instance goroutine_eq_dec : EqDecision goroutine.
Proof. solve_decision. Defined.

(** The [Rescheduler] struct ([lock], [me], [done]) together with the heap
    of channels, the goroutines that use the instance, and the
    instrumentation of the [call] field.  [done] is the index in [chans] of
    the channel the field currently refers to. *)
Record Rescheduler := MkRescheduler {
  lock : bool;
  me : Z;
  done : nat;
  chans : list chan;
  threads : list goroutine;
  started : nat;
  finished : nat
}.

(** [NewRescheduler]: unlocked mutex, [me = 0], a fresh channel of capacity
    one; no goroutine uses the instance yet. *)
Definition NewRescheduler : Rescheduler :=
  {| lock := false; me := 0; done := 0; chans := [make_chan 1];
     threads := []; started := 0; finished := 0 |}.

(** ** Field updates *)

Definition set_lock (b : bool) (r : Rescheduler) : Rescheduler :=
  {| lock := b; me := me r; done := done r; chans := chans r;
     threads := threads r; started := started r; finished := finished r |}.

Definition set_me (z : Z) (r : Rescheduler) : Rescheduler :=
  {| lock := lock r; me := z; done := done r; chans := chans r;
     threads := threads r; started := started r; finished := finished r |}.

Definition set_done (c : nat) (r : Rescheduler) : Rescheduler :=
  {| lock := lock r; me := me r; done := c; chans := chans r;
     threads := threads r; started := started r; finished := finished r |}.

Definition set_chans (l : list chan) (r : Rescheduler) : Rescheduler :=
  {| lock := lock r; me := me r; done := done r; chans := l;
     threads := threads r; started := started r; finished := finished r |}.

Definition set_threads (l : list goroutine) (r : Rescheduler) : Rescheduler :=
  {| lock := lock r; me := me r; done := done r; chans := chans r;
     threads := l; started := started r; finished := finished r |}.

Definition call_begins (r : Rescheduler) : Rescheduler :=
  {| lock := lock r; me := me r; done := done r; chans := chans r;
     threads := threads r; started := S (started r); finished := finished r |}.

Definition call_returns (r : Rescheduler) : Rescheduler :=
  {| lock := lock r; me := me r; done := done r; chans := chans r;
     threads := threads r; started := started r; finished := S (finished r) |}.

(** Goroutine [t] moves to program point [g]. *)
Definition goto (t : nat) (g : goroutine) (r : Rescheduler) : Rescheduler :=
  set_threads (<[t := g]> (threads r)) r.

(** A new goroutine is started at program point [g]. *)
Definition spawn (g : goroutine) (r : Rescheduler) : Rescheduler :=
  set_threads (threads r ++ [g]) r.

(** ** Steps *)

(** A step either produces the next state, cannot be taken now (the
    goroutine is suspended), or is a run-time panic. *)
Inductive outcome :=
| Next (r : Rescheduler)
| Blocked
| Panic.

(** [sync.Mutex.Unlock]: unlocking an unlocked mutex is a fatal error. *)
Definition Unlock (r : Rescheduler) (k : Rescheduler -> Rescheduler) : outcome :=
  if lock r then Next (k (set_lock false r)) else Panic.

(** One statement of [Run], executed by goroutine [t]. *)
Definition Run (t : nat) (p : RunPc) (r : Rescheduler) : outcome :=
  match p with
  | RunLock =>
      if lock r then Blocked
      else Next (goto t (InRun RunCheck) (set_lock true r))
  | RunCheck =>
      if Z.land (me r) R_RUNNING =? 1
      then Next (goto t (InRun RunSetRerun) r)
      else Next (goto t (InRun RunSetRunning) r)
  | RunSetRerun =>
      Next (goto t (InRun RunUnlockRerun)
              (set_me (byte_wrap (Z.lor (me r) R_RERUN)) r))
  | RunUnlockRerun => Unlock r (goto t Returned)
  | RunSetRunning => Next (goto t (InRun RunUnlock) (set_me R_RUNNING r))
  | RunUnlock => Unlock r (goto t (InRun RunGo))
  | RunGo => Next (spawn (InThreadRun ThCall) (goto t Returned r))
  end.

(** One statement of [threadRun], executed by goroutine [t].  Closing a
    channel that is closed already is a run-time panic. *)
Definition threadRun (t : nat) (p : ThreadPc) (r : Rescheduler) : outcome :=
  match p with
  | ThCall => Next (goto t (InThreadRun ThInCall) (call_begins r))
  | ThInCall => Next (goto t (InThreadRun ThLock) (call_returns r))
  | ThLock =>
      if lock r then Blocked
      else Next (goto t (InThreadRun ThCheck) (set_lock true r))
  | ThCheck =>
      if Z.land (me r) R_RERUN =? 0
      then Next (goto t (InThreadRun ThClear) r)
      else Next (goto t (InThreadRun ThFlip) r)
  | ThClear => Next (goto t (InThreadRun ThClose) (set_me 0 r))
  | ThClose =>
      match chans r !! done r with
      | None => Panic
      | Some ch =>
          if ch_closed ch then Panic
          else Next (goto t (InThreadRun ThMake)
                       (set_chans (<[done r := close_chan ch]> (chans r)) r))
      end
  | ThMake =>
      Next (goto t (InThreadRun ThUnlockBreak)
              (set_done (length (chans r))
                 (set_chans (chans r ++ [make_chan 1]) r)))
  | ThUnlockBreak => Unlock r (goto t Returned)
  | ThFlip =>
      Next (goto t (InThreadRun ThUnlockLoop)
              (set_me (byte_wrap (Z.lxor (me r) R_RERUN)) r))
  | ThUnlockLoop => Unlock r (goto t (InThreadRun ThCall))
  end.

(** One step of [Wait], executed by goroutine [t]: a receive takes a
    buffered element if there is one, returns at once on a closed channel,
    and suspends the goroutine otherwise. *)
Definition Wait (t : nat) (p : WaitPc) (r : Rescheduler) : outcome :=
  match p with
  | WaitRead => Next (goto t (InWait (WaitRecv (done r))) r)
  | WaitRecv c =>
      match chans r !! c with
      | None => Blocked
      | Some ch =>
          match ch_len ch with
          | S n =>
              Next (goto t Returned
                      (set_chans (<[c := Chan (ch_cap ch) n (ch_closed ch)]> (chans r)) r))
          | O => if ch_closed ch then Next (goto t Returned r) else Blocked
          end
      end
  end.

(** Events of a schedule: some goroutine calls [r.Run()], some goroutine
    calls [r.Wait()], or goroutine [t] executes its next statement. *)
Inductive event :=
| CallRun
| CallWait
| Step (t : nat).

#[global] Instance event_eq_dec : EqDecision event.
Proof. solve_decision. Defined.

Definition step (e : event) (r : Rescheduler) : outcome :=
  match e with
  | CallRun => Next (spawn (InRun RunLock) r)
  | CallWait => Next (spawn (InWait WaitRead) r)
  | Step t =>
      match threads r !! t with
      | Some (InRun p) => Run t p r
      | Some (InThreadRun p) => threadRun t p r
      | Some (InWait p) => Wait t p r
      | Some Returned => Blocked
      | None => Blocked
      end
  end.

(** Running a schedule; [None] when one of its events cannot be taken. *)
Fixpoint exec (sch : list event) (r : Rescheduler) : option Rescheduler :=
  match sch with
  | [] => Some r
  | e :: sch' =>
      match step e r with
      | Next r' => exec sch' r'
      | _ => None
      end
  end.

Definition reachable (r : Rescheduler) : Prop :=
  exists sch, exec sch NewRescheduler = Some r.

(** The same goroutine takes [n] steps in a row. *)
Definition steps (t n : nat) : list event := replicate n (Step t).

(** Number of [Run] calls issued by a schedule. *)
Fixpoint calls_Run (sch : list event) : nat :=
  match sch with
  | [] => 0%nat
  | CallRun :: sch' => S (calls_Run sch')
  | _ :: sch' => calls_Run sch'
  end.

(** ** Census of goroutines *)

(** Number of goroutines of [l] at program point [g]. *)
Fixpoint occ (g : goroutine) (l : list goroutine) : nat :=
  match l with
  | [] => 0%nat
  | x :: l' => ((if decide (x = g) then 1 else 0) + occ g l')%nat
  end.

Definition nR (r : Rescheduler) (p : RunPc) : nat := occ (InRun p) (threads r).
Definition nT (r : Rescheduler) (p : ThreadPc) : nat := occ (InThreadRun p) (threads r).

(** Goroutines currently inside [Run]. *)
Definition in_Run (r : Rescheduler) : nat :=
  (nR r RunLock + nR r RunCheck + nR r RunSetRerun + nR r RunUnlockRerun
   + nR r RunSetRunning + nR r RunUnlock + nR r RunGo)%nat.

(** Goroutines currently inside [threadRun]. *)
Definition in_threadRun (r : Rescheduler) : nat :=
  (nT r ThCall + nT r ThInCall + nT r ThLock + nT r ThCheck + nT r ThClear
   + nT r ThClose + nT r ThMake + nT r ThUnlockBreak + nT r ThFlip
   + nT r ThUnlockLoop)%nat.

(** Goroutines between [Lock] and [Unlock]. *)
Definition in_critical (r : Rescheduler) : nat :=
  (nR r RunCheck + nR r RunSetRerun + nR r RunUnlockRerun + nR r RunSetRunning
   + nR r RunUnlock
   + nT r ThCheck + nT r ThClear + nT r ThClose + nT r ThMake
   + nT r ThUnlockBreak + nT r ThFlip + nT r ThUnlockLoop)%nat.

(** Goroutines that account for the [R_RUNNING] flag: the caller that has
    set it and is about to start the worker, and the worker up to the
    statement that clears the flag. *)
Definition running (r : Rescheduler) : nat :=
  (nR r RunUnlock + nR r RunGo
   + nT r ThCall + nT r ThInCall + nT r ThLock + nT r ThCheck + nT r ThClear
   + nT r ThFlip + nT r ThUnlockLoop)%nat.

(** Program points between [Lock] and [Unlock]. *)
Definition is_critical (g : goroutine) : bool :=
  match g with
  | InRun (RunCheck | RunSetRerun | RunUnlockRerun | RunSetRunning | RunUnlock) => true
  | InThreadRun (ThCheck | ThClear | ThClose | ThMake | ThUnlockBreak
                 | ThFlip | ThUnlockLoop) => true
  | _ => false
  end.

(** Goroutines executing [Run] or [threadRun]. *)
Definition working (g : goroutine) : bool :=
  match g with
  | InRun _ | InThreadRun _ => true
  | _ => false
  end.

(** Nobody is inside [Run] or [threadRun]. *)
Definition quiescent (r : Rescheduler) : Prop :=
  in_Run r = 0%nat /\ in_threadRun r = 0%nat.

(** ** The invariant of the state machine *)

(** Program points that cannot be occupied for a given value of [me]:
    - [me = 0]: nobody is about to set or has just set the rerun flag;
    - [me = 1]: nobody has just set the rerun flag, is about to set the
      running flag or to flip the rerun flag, and no worker is past the
      statement that clears [me];
    - [me = 3]: nobody is about to set or has just set the running flag, and
      no worker is past the test that found the rerun flag clear or past the
      flip. *)
Definition excluded (r : Rescheduler) : nat :=
  if me r =? 0 then
    (nR r RunSetRerun + nR r RunUnlockRerun)%nat
  else if me r =? 1 then
    (nR r RunUnlockRerun + nR r RunSetRunning + nT r ThFlip
     + nT r ThClose + nT r ThMake + nT r ThUnlockBreak)%nat
  else
    (nR r RunSetRunning + nR r RunUnlock + nT r ThClear + nT r ThUnlockLoop
     + nT r ThClose + nT r ThMake + nT r ThUnlockBreak)%nat.

(** Flags, mutex and census agree: [me] is 0, 1 or 3; the mutex is locked
    exactly when one goroutine is between [Lock] and [Unlock]; [R_RUNNING] is
    set exactly when one goroutine accounts for it; the instrumentation
    counts one unfinished execution per goroutine inside [call]. *)
Record FlagInv (r : Rescheduler) : Prop := {
  inv_me : me r = 0 \/ me r = 1 \/ me r = 3;
  inv_lock : in_critical r = if lock r then 1%nat else 0%nat;
  inv_running : running r = if me r =? 0 then 0%nat else 1%nat;
  inv_excluded : excluded r = 0%nat;
  inv_calls : started r = (finished r + nT r ThInCall)%nat
}.

(** The channel heap: [done] is the newest channel, every older channel is
    closed, nothing was ever sent, and the current channel is closed exactly
    between the [close] and the [make] of [threadRun]. *)
Record ChanInv (r : Rescheduler) : Prop := {
  inv_heap : length (chans r) = S (done r);
  inv_chan : forall c ch, chans r !! c = Some ch ->
    ch_len ch = 0%nat /\
    ((c < done r)%nat -> ch_closed ch = true) /\
    (c = done r -> (ch_closed ch = true <-> (0 < nT r ThMake)%nat))
}.

Definition Inv (r : Rescheduler) : Prop := FlagInv r /\ ChanInv r.

(** ** Progress *)

(** An upper bound on the number of steps that the goroutines inside [Run]
    and [threadRun] can still take if no further [Run] call is issued: each
    program point is weighted with the number of steps left from it, and a
    pending rerun with the steps of one more turn of the worker's loop. *)
Definition potential (r : Rescheduler) : nat :=
  (13 * nR r RunLock + 12 * nR r RunCheck + 8 * nR r RunSetRerun
   + 1 * nR r RunUnlockRerun + 11 * nR r RunSetRunning + 10 * nR r RunUnlock
   + 9 * nR r RunGo
   + 8 * nT r ThCall + 7 * nT r ThInCall + 6 * nT r ThLock + 5 * nT r ThCheck
   + 4 * nT r ThClear + 3 * nT r ThClose + 2 * nT r ThMake
   + 1 * nT r ThUnlockBreak + 4 * nT r ThFlip + 9 * nT r ThUnlockLoop
   + (if (Z.land (me r) R_RERUN =? 0)%Z then 0 else 6))%nat.

(** ** Requests and the executions that serve them *)

(** Goroutines whose position guarantees that another execution of [call]
    starts before the instance becomes idle: the caller that has set
    [R_RUNNING] and is about to launch the worker, the worker at the top of
    its loop or on its way back there, and, while the rerun flag is set, the
    worker between entering [call] and testing the flag. *)
Definition will_start (r : Rescheduler) : nat :=
  (nR r RunUnlock + nR r RunGo + nT r ThCall + nT r ThFlip + nT r ThUnlockLoop
   + (if (Z.land (me r) R_RERUN =? 0)%Z then 0
      else nT r ThInCall + nT r ThLock + nT r ThCheck))%nat.

(** A request made when [k] executions had started is covered: execution
    [k+1] has completed, or it has started and the worker has not gone idle,
    or it is bound to start. *)
Definition covered (k : nat) (r : Rescheduler) : Prop :=
  (k <= started r)%nat /\
  ((k + 1 <= finished r)%nat \/
   (me r <> 0 /\ (k + 1 <= started r)%nat) \/
   (0 < will_start r)%nat).

(** What is known about the request of goroutine [t], issued when [k]
    executions had started: once the goroutine has written [me] the request
    is covered. *)
Definition requested (k t : nat) (r : Rescheduler) : Prop :=
  (k <= started r)%nat /\
  match threads r !! t with
  | Some (InRun (RunLock | RunCheck | RunSetRerun | RunSetRunning)) => True
  | Some (InRun (RunUnlockRerun | RunUnlock | RunGo)) | Some Returned => covered k r
  | _ => False
  end.

(** What is known about goroutine [w], which called [Wait] after a request
    issued when [k] executions had started: the channel it receives from is
    closed only after execution [k+1] has completed. *)
Definition waiting (k w : nat) (r : Rescheduler) : Prop :=
  covered k r /\
  match threads r !! w with
  | Some (InWait WaitRead) => True
  | Some (InWait (WaitRecv c)) =>
      (c <= done r)%nat /\
      ((c < done r)%nat \/ (0 < nT r ThMake)%nat -> (k + 1 <= finished r)%nat)
  | Some Returned => (k + 1 <= finished r)%nat
  | _ => False
  end.

(** ** Waiting on an idle instance *)


(** Goroutine [w] is inside [Wait] on an instance on which nothing happens:
    nobody is inside [Run] or [threadRun], [r.done] is channel [d], and [w]
    is about to read [r.done] or receives from [d]. *)
Definition parked (d w : nat) (r : Rescheduler) : Prop :=
  quiescent r /\ done r = d /\
  (threads r !! w = Some (InWait WaitRead) \/
   threads r !! w = Some (InWait (WaitRecv d))).

(** The cycle that will close channel [d] is still under way, or [d] has
    already been replaced. *)
Definition cycle_pending (d : nat) (r : Rescheduler) : Prop :=
  (d <= done r)%nat /\
  ((d < done r)%nat \/
   (0 < in_Run r + nT r ThCall + nT r ThInCall + nT r ThLock + nT r ThCheck
        + nT r ThClear + nT r ThClose + nT r ThMake + nT r ThFlip
        + nT r ThUnlockLoop)%nat).


(** ** Bursts of calls *)

(** Every [Run] call of the schedule is issued, and takes each of its
    steps, while the instance is not idle. *)
Fixpoint during_active (sch : list event) (r : Rescheduler) : bool :=
  match sch with
  | [] => true
  | e :: sch' =>
      let in_run :=
        match e with
        | CallRun => true
        | CallWait => false
        | Step t => match threads r !! t with Some (InRun _) => true | _ => false end
        end in
      (negb in_run || negb (me r =? IDLE))
      && match step e r with
         | Next r' => during_active sch' r'
         | _ => false
         end
  end.

(** C1 as stated: while a worker executes the work function and nobody is
    inside [Run], any [N >= 2] calls of [Run] made while the instance is not
    idle lead to exactly one execution after the current one, two in all,
    when the instance is idle again. *)
Definition coalescing_as_stated : Prop :=
  forall r sch r',
    reachable r -> nT r ThInCall = 1%nat -> in_Run r = 0%nat ->
    (2 <= calls_Run sch)%nat -> during_active sch r = true ->
    exec sch r = Some r' -> quiescent r' ->
    finished r' = (finished r + 2)%nat.

(** While execution number [s0] is in progress, a call is inside [Run] or
    the rerun flag is set. *)
Definition rerun_noted (s0 : nat) (r : Rescheduler) : Prop :=
  (s0 <= started r)%nat /\
  (started r = s0 -> nT r ThInCall = 1%nat ->
   (0 < in_Run r)%nat \/ me r = RUNNING_WITH_RERUN_PENDING).

(** Executions of the work function that the worker will still start if no
    further call is made. *)
Definition owed (r : Rescheduler) : nat :=
  (nT r ThCall + nT r ThFlip + nT r ThUnlockLoop
   + (if (Z.land (me r) R_RERUN =? 0)%Z then 0
      else nT r ThCall + nT r ThInCall + nT r ThLock + nT r ThCheck))%nat.

(** Nobody is inside [Run] and the worker will have started [n] executions
    in all when it goes idle. *)
Definition settles (n : nat) (r : Rescheduler) : Prop :=
  in_Run r = 0%nat /\ (started r + owed r = n)%nat.

(** ** Example runs *)

(** A fresh instance on which goroutine 0 has just called [Run]. *)
Definition call_issued : Rescheduler := spawn (InRun RunLock) NewRescheduler.

(** The first [Run] call has returned and has launched goroutine 1. *)
Definition first_run_returned : Rescheduler :=
  {| lock := false; me := 1; done := 0; chans := [make_chan 1];
     threads := [Returned; InThreadRun ThCall];
     started := 0; finished := 0 |}.

(** A schedule on a fresh instance: one [Run] call runs to completion and
    the worker it starts enters [call]. *)
Definition first_run : list event := CallRun :: steps 0 5 ++ [Step 1].

(** The state it leads to: [me = RUNNING], goroutine 1 is inside [call]. *)
Definition in_first_call : Rescheduler :=
  {| lock := false; me := 1; done := 0; chans := [make_chan 1];
     threads := [Returned; InThreadRun ThInCall];
     started := 1; finished := 0 |}.

(** The first execution of the work function has returned; the worker is
    about to take the mutex. *)
Definition first_call_done : Rescheduler :=
  {| lock := false; me := 1; done := 0; chans := [make_chan 1];
     threads := [Returned; InThreadRun ThLock];
     started := 1; finished := 1 |}.

(** Goroutine 2 reads [r.done], the worker (goroutine 1) runs its cycle, and
    goroutine 2 receives from the closed channel. *)
Definition wait_through_cycle : list event := Step 2 :: steps 1 8 ++ [Step 2].

Definition after_first_cycle : Rescheduler :=
  {| lock := false; me := 0; done := 1;
     chans := [close_chan (make_chan 1); make_chan 1];
     threads := [Returned; Returned; Returned];
     started := 1; finished := 1 |}.

(** Two [Run] calls (goroutines 2 and 3) made while the first execution is in
    progress. *)
Definition burst_of_two : list event := CallRun :: steps 2 4 ++ CallRun :: steps 3 4.

Definition burst_noted : Rescheduler :=
  {| lock := false; me := 3; done := 0; chans := [make_chan 1];
     threads := [Returned; InThreadRun ThInCall; Returned; Returned];
     started := 1; finished := 0 |}.

Definition after_burst : Rescheduler :=
  {| lock := false; me := 0; done := 1;
     chans := [close_chan (make_chan 1); make_chan 1];
     threads := [Returned; Returned; Returned; Returned];
     started := 2; finished := 2 |}.

(** Two [Run] calls during one cycle, the first while the first execution is
    in progress and the second while the rerun is in progress; goroutine 1 is
    the worker, goroutines 2 and 3 are the callers. *)
Definition spread_burst : list event :=
  CallRun :: steps 2 4 ++ steps 1 6
  ++ CallRun :: steps 3 4 ++ steps 1 13.

(** ** Further invariants, measures and example states *)

(** Every channel of the heap was made by [make(chan struct{}, 1)]. *)
Definition capacity_one (r : Rescheduler) : Prop :=
  forall c ch, chans r !! c = Some ch -> ch_cap ch = 1%nat.

(** A goroutine receiving in [Wait] holds a channel that [r.done] has
    referred to. *)
Definition receivers_bounded (r : Rescheduler) : Prop :=
  forall w c, threads r !! w = Some (InWait (WaitRecv c)) -> (c <= done r)%nat.
(** What is known about goroutine [w], which called [Wait] when [r.done]
    was channel [d]: it receives from [d] or a later channel, and it has
    returned only after [d] was closed. *)
Definition signal_seen (d w : nat) (r : Rescheduler) : Prop :=
  (d <= done r)%nat /\
  match threads r !! w with
  | Some (InWait WaitRead) => True
  | Some (InWait (WaitRecv c)) => (d <= c <= done r)%nat
  | Some Returned => (d < done r)%nat \/ (0 < nT r ThMake)%nat
  | _ => False
  end.
(** Executions started so far plus those that the calls made so far can
    still cause: one per goroutine inside [Run] that has not yet set the
    rerun flag, one for the pending rerun, one for a worker at the top of its
    loop. *)
Definition budget (r : Rescheduler) : nat :=
  (started r + nT r ThCall + nT r ThUnlockLoop
   + (if (Z.land (me r) R_RERUN =? 0)%Z then 0 else 1)
   + nR r RunLock + nR r RunCheck + nR r RunSetRerun + nR r RunSetRunning
   + nR r RunUnlock + nR r RunGo)%nat.

(** Cycles completed so far, plus one for a worker that has finished an
    execution of the current cycle and has not yet replaced [r.done], do not
    exceed the executions finished. *)
Definition cycles_bounded (r : Rescheduler) : Prop :=
  (done r + nT r ThLock + nT r ThCheck + nT r ThClear + nT r ThClose
   + nT r ThMake + nT r ThFlip + nT r ThUnlockLoop <= finished r)%nat.

(** Some call has been made: a goroutine is inside [Run], or the instance is
    not idle, or the worker is signalling completion, or a cycle has
    completed. *)
Definition called (r : Rescheduler) : Prop :=
  (0 < in_Run r + nT r ThClose + nT r ThMake)%nat \/ me r <> 0 \/ (1 <= done r)%nat.
(** Whether the event is a step of a goroutine inside [Run] or [threadRun]. *)
Definition is_work (e : event) (r : Rescheduler) : nat :=
  match e with
  | Step t =>
      match threads r !! t with
      | Some g => if working g then 1%nat else 0%nat
      | None => 0%nat
      end
  | _ => 0%nat
  end.

(** Number of steps that goroutines inside [Run] and [threadRun] take in a
    schedule. *)
Fixpoint work_steps (sch : list event) (r : Rescheduler) : nat :=
  match sch with
  | [] => 0%nat
  | e :: sch' =>
      match step e r with
      | Next r' => (is_work e r + work_steps sch' r')%nat
      | _ => 0%nat
      end
  end.
(** A single call on an idle instance, with [n] executions to be started and
    channel [d] to be closed by the time it is served: at most one goroutine
    is inside [Run] or [threadRun], no rerun is flagged, and the execution
    and the completion signal of the call are still to come exactly while
    that goroutine has not passed the corresponding statement. *)
Definition lone_run (n d : nat) (r : Rescheduler) : Prop :=
  (in_Run r + in_threadRun r <= 1)%nat /\
  me r <> RUNNING_WITH_RERUN_PENDING /\
  (nR r RunSetRerun + nR r RunUnlockRerun + nT r ThFlip + nT r ThUnlockLoop = 0)%nat /\
  (started r + in_Run r + nT r ThCall = n)%nat /\
  (done r + in_Run r + nT r ThCall + nT r ThInCall + nT r ThLock + nT r ThCheck
   + nT r ThClear + nT r ThClose + nT r ThMake = d + 1)%nat.
(** Relative to the state [r0] in which goroutine [w] is executing the work
    function: [w] is still executing it, the counters, [r.done] and the
    channels are as in [r0], and the goroutines that were receiving from the
    current channel still are. *)
Definition pinned (r0 : Rescheduler) (w : nat) (r : Rescheduler) : Prop :=
  threads r !! w = Some (InThreadRun ThInCall) /\
  started r = started r0 /\ finished r = finished r0 /\
  done r = done r0 /\ chans r = chans r0 /\
  forall t, threads r0 !! t = Some (InWait (WaitRecv (done r0))) ->
            threads r !! t = Some (InWait (WaitRecv (done r0))).
(** On a fresh instance goroutine 0 has called [Run], holds the mutex and is
    about to set [R_RUNNING]. *)
Definition setting_running : Rescheduler :=
  {| lock := true; me := 0; done := 0; chans := [make_chan 1];
     threads := [InRun RunSetRunning]; started := 0; finished := 0 |}.

(** On a fresh instance goroutine 0 has called [Wait] and read [r.done]. *)
Definition receiving_on_fresh : Rescheduler :=
  {| lock := false; me := 0; done := 0; chans := [make_chan 1];
     threads := [InWait (WaitRecv 0)]; started := 0; finished := 0 |}.

(** The worker of the first cycle has closed [r.done] and is about to
    replace it. *)
Definition signalling : Rescheduler :=
  {| lock := true; me := 0; done := 0; chans := [close_chan (make_chan 1)];
     threads := [Returned; InThreadRun ThMake]; started := 1; finished := 1 |}.

(** A [Run] call, a [Wait] call made after it has returned, and the cycle
    that releases the waiter. *)
Definition run_and_wait : list event :=
  CallRun :: steps 0 5 ++ CallWait :: wait_through_cycle.
(** Goroutine 2 has called [Wait] and read [r.done] while the worker
    (goroutine 1) of the first cycle was about to enter the work function. *)
Definition receiving_in_cycle : Rescheduler :=
  {| lock := false; me := 1; done := 0; chans := [make_chan 1];
     threads := [Returned; InThreadRun ThCall; InWait (WaitRecv 0)];
     started := 0; finished := 0 |}.

(* ================================================================= *)
(** * Proofs *)

(** ** Census lemmas *)

Lemma occ_app g l1 l2 : occ g (l1 ++ l2) = (occ g l1 + occ g l2)%nat.
Proof. induction l1 as [|x l1 IH]; simpl; [reflexivity | rewrite IH; lia]. Qed.

Lemma occ_insert g l t x y :
  l !! t = Some x ->
  occ g (<[t := y]> l)
  = match decide (x = g), decide (y = g) with
    | left _, left _ => occ g l
    | left _, right _ => (occ g l - 1)%nat
    | right _, left _ => S (occ g l)
    | right _, right _ => occ g l
    end
  /\ ((if decide (x = g) then 1 else 0) <= occ g l)%nat.
Proof.
  revert t. induction l as [|a l IH]; intros [|t] H; simpl in *; try discriminate.
  - injection H as ->. repeat case_decide; lia.
  - destruct (IH _ H) as [E L]. rewrite E. repeat case_decide; lia.
Qed.

Lemma occ_lookup g l t : l !! t = Some g -> (1 <= occ g l)%nat.
Proof.
  intros H. destruct (occ_insert g l t g g H) as [_ L].
  case_decide; [lia | congruence].
Qed.

Lemma occ_lookup2 g l t t' :
  t <> t' -> l !! t = Some g -> l !! t' = Some g -> (2 <= occ g l)%nat.
Proof.
  revert t t'. induction l as [|a l IH]; intros [|t] [|t'] Hne H H';
    simpl in *; try discriminate; try congruence.
  - injection H as ->. pose proof (occ_lookup _ _ _ H'). case_decide; [lia | congruence].
  - injection H' as ->. pose proof (occ_lookup _ _ _ H). case_decide; [lia | congruence].
  - assert (Hn : t <> t') by congruence. pose proof (IH t t' Hn H H'). case_decide; lia.
Qed.

Lemma occ_pos g l : (0 < occ g l)%nat -> exists t, l !! t = Some g.
Proof.
  induction l as [|a l IH]; simpl; [lia|].
  case_decide as E; intros H.
  - exists 0%nat. simpl. congruence.
  - destruct IH as [t Ht]; [lia|]. exists (S t). exact Ht.
Qed.

Lemma occ_insert_other q l t x y :
  l !! t = Some x -> x <> q -> y <> q -> occ q (<[t := y]> l) = occ q l.
Proof.
  intros H Hx Hy. rewrite (proj1 (occ_insert q l t x y H)).
  repeat case_decide; congruence.
Qed.

Lemma occ_insert_enter q l t x :
  l !! t = Some x -> x <> q -> occ q (<[t := q]> l) = S (occ q l).
Proof.
  intros H Hx. rewrite (proj1 (occ_insert q l t x q H)).
  repeat case_decide; congruence.
Qed.

Lemma occ_insert_leave q l t y :
  l !! t = Some q -> y <> q -> occ q (<[t := y]> l) = (occ q l - 1)%nat.
Proof.
  intros H Hy. rewrite (proj1 (occ_insert q l t q y H)).
  repeat case_decide; congruence.
Qed.

Lemma occ_insert_stay q l t :
  l !! t = Some q -> occ q (<[t := q]> l) = occ q l.
Proof.
  intros H. rewrite (proj1 (occ_insert q l t q q H)).
  repeat case_decide; congruence.
Qed.

Lemma occ_snoc_other q l g : g <> q -> occ q (l ++ [g]) = occ q l.
Proof. intros H. rewrite occ_app. simpl. case_decide; [congruence | lia]. Qed.

Lemma occ_snoc_same q l : occ q (l ++ [q]) = S (occ q l).
Proof. rewrite occ_app. simpl. case_decide; [lia | congruence]. Qed.

Lemma lookup_spawned (l : list goroutine) g : (l ++ [g]) !! length l = Some g.
Proof. apply list_lookup_middle. reflexivity. Qed.

(** ** Tactics *)

(** Case analysis on the statement that is executed. *)
Ltac step_cases H :=
  try discriminate;
  repeat match type of H with
    | (if ?b then _ else _) = _ => destruct b eqn:?; try discriminate
    | match ?x with _ => _ end = _ => destruct x eqn:?; try discriminate
    end;
  injection H as <-.

Ltac step_inv H :=
  lazymatch type of H with
  | step (Step ?t) ?r = Next ?r' =>
      let Ht := fresh "Ht" in
      simpl in H;
      destruct (threads r !! t) as [[[]|[]|[|?c]|]|] eqn:Ht;
      simpl in H; unfold Unlock in H; step_cases H
  | step ?e ?r = Next ?r' =>
      let t := fresh "t" in
      destruct e as [| |t]; simpl in H;
      [ | | let Ht := fresh "Ht" in
            destruct (threads r !! t) as [[[]|[]|[|?c]|]|] eqn:Ht;
            simpl in H; unfold Unlock in H ];
      step_cases H
  end.

Ltac census_rw :=
  repeat match goal with
  | Ht : ?l !! ?t = Some ?x |- context [occ ?q (<[?t := ?y]> ?l)] =>
      first [ rewrite (occ_insert_other q l t x y Ht) by discriminate
            | rewrite (occ_insert_enter q l t x Ht) by discriminate
            | rewrite (occ_insert_leave q l t y Ht) by discriminate
            | rewrite (occ_insert_stay q l t Ht) ]
  | |- context [occ ?q (?l ++ [?g])] =>
      first [ rewrite (occ_snoc_other q l g) by discriminate
            | rewrite (occ_snoc_same q l) ]
  end.

Ltac census_unfold :=
  unfold excluded, in_Run, in_threadRun, in_critical, running, nR, nT in *.

(** Evaluation of byte operations on literals. *)
Ltac is_poslit p :=
  lazymatch p with
  | xH => idtac
  | xO ?q => is_poslit q
  | xI ?q => is_poslit q
  end.

Ltac is_Zlit z :=
  lazymatch z with
  | Z0 => idtac
  | Zpos ?p => is_poslit p
  | Zneg ?p => is_poslit p
  end.

Ltac zeval_op f :=
  repeat match goal with
  | |- context [f ?a ?b] =>
      is_Zlit a; is_Zlit b;
      let v := eval vm_compute in (f a b) in
      change (f a b) with v
  | H : context [f ?a ?b] |- _ =>
      is_Zlit a; is_Zlit b;
      let v := eval vm_compute in (f a b) in
      change (f a b) with v in H
  end.

Ltac zeval :=
  repeat progress
    (zeval_op Z.land; zeval_op Z.lor; zeval_op Z.lxor; zeval_op Z.modulo;
     zeval_op Z.eqb).

Ltac fields :=
  cbn [lock me done chans threads started finished goto spawn set_lock
         set_me set_done set_chans set_threads call_begins call_returns] in *.

Ltac flag_cases I :=
  let Hm := fresh "Hm" in
  let Hl := fresh "Hl" in
  match type of I with
  | FlagInv ?r =>
      destruct I as [Hm ? ? ? ?];
      destruct Hm as [Hm|[Hm|Hm]];
      first [ match goal with Hl' : lock r = _ |- _ => rename Hl' into Hl end
            | destruct (lock r) eqn:Hl ];
      census_unfold;
      unfold byte_wrap, R_RERUN, R_RUNNING in *;
      fields;
      rewrite ?Hm, ?Hl in *;
      zeval; cbv iota in *
  end.

Ltac known_fields :=
  repeat match goal with
  | H : lock ?r = _ |- context [lock ?r] => rewrite H
  | H : me ?r = _ |- context [me ?r] => rewrite H
  end.

Ltac census_goal :=
  census_unfold; unfold byte_wrap, R_RERUN, R_RUNNING; fields; known_fields;
  zeval; cbv iota; census_rw.

Ltac flag_goal := constructor; census_goal; try lia.

Ltac self_lookup :=
  fields;
  rewrite ?lookup_app_l
    by (rewrite ?length_insert; eapply lookup_lt_Some; eassumption);
  rewrite ?list_lookup_insert_eq by (eapply lookup_lt_Some; eassumption).

Ltac lookup_self :=
  rewrite ?lookup_app_l
    by (rewrite ?length_insert; eapply lookup_lt_Some; eassumption);
  apply list_lookup_insert_eq; rewrite ?length_insert;
  eapply lookup_lt_Some; eassumption.

(** Symbolic execution of the next event of a schedule. *)
Ltac sym_step :=
  cbn [exec steps replicate]; unfold step; fields;
  repeat match goal with
  | |- context [<[?t := ?g]> ?l !! ?t] =>
      rewrite (list_lookup_insert_eq l t g)
        by (rewrite ?length_insert; eapply lookup_lt_Some; eassumption)
  | H : ?l !! ?t = Some _ |- context [?l !! ?t] => rewrite H
  end;
  cbn [Run threadRun Wait]; unfold Unlock; fields; known_fields;
  repeat match goal with
  | H : chans ?r !! ?c = Some _ |- context [chans ?r !! ?c] => rewrite H
  | H : ch_closed ?c = _ |- context [ch_closed ?c] => rewrite H
  | H : ch_len ?c = _ |- context [ch_len ?c] => rewrite H
  end;
  unfold byte_wrap, R_RERUN, R_RUNNING; zeval; cbv iota.

(** Two symbolic states with the same fields are equal. *)
Ltac state_eq :=
  match goal with
  | |- Some _ = Some _ => f_equal
  | _ => idtac
  end;
  match goal with
  | r : Rescheduler |- _ =>
      destruct r as [rl rm rd rc rt rs rf];
      cbv [spawn goto set_lock set_me set_done set_chans set_threads
             call_begins call_returns
             lock me done chans threads started finished] in *; subst;
      rewrite ?length_insert, ?list_insert_insert_eq; reflexivity
  end.

Ltac find_goroutine H :=
  repeat match type of H with
  | (0 < _ + occ ?g ?l)%nat =>
      let E := fresh "E" in
      destruct (Nat.eq_dec (occ g l) 0%nat) as [E|E];
      [ rewrite E, Nat.add_0_r in H
      | destruct (occ_pos g l) as [?t ?Ht]; [lia|]; clear H ]
  | (0 < occ ?g ?l)%nat =>
      destruct (occ_pos g l H) as [?t ?Ht]; clear H
  end.

(** ** The invariant holds in every reachable state *)

Lemma FlagInv_step e r r' : FlagInv r -> step e r = Next r' -> FlagInv r'.
Proof.
  intros I H. step_inv H.
  all: try (pose proof (occ_lookup _ _ _ Ht)).
  all: flag_cases I.
  all: try discriminate.
  all: flag_goal.

Qed.
Lemma ChanInv_step e r r' :
  FlagInv r -> ChanInv r -> step e r = Next r' -> ChanInv r'.
Proof.
  intros F [Hh Hc] H. step_inv H.
  all: try (pose proof (occ_lookup _ _ _ Ht)).
  all: constructor; fields; try assumption.
  all: try (intros c' ch' Hc'; specialize (Hc c' ch' Hc');
            unfold nT in *; fields; census_rw; exact Hc).
  - (* close(r.done) *)
    rewrite length_insert. exact Hh.
  - intros c' ch' Hc'. unfold nT in *; fields; census_rw.
    destruct (decide (c' = done r)) as [->|Hne].
    + rewrite list_lookup_insert_eq in Hc' by lia.
      injection Hc' as <-. simpl.
      match goal with E : chans r !! done r = Some ?c |- _ =>
        destruct (Hc _ _ E) as (L & _ & _) end.
      split; [exact L|]. split; [reflexivity|]. intros _. split; [lia | reflexivity].
    + rewrite list_lookup_insert_ne in Hc' by congruence.
      destruct (Hc _ _ Hc') as (L & Hlt & _).
      split; [exact L|]. split; [exact Hlt | intros ->; congruence].
  - (* r.done = make(chan struct{}, 1) *)
    rewrite length_app. simpl. lia.
  - intros c' ch' Hc'. unfold nT in *; fields; census_rw.
    destruct (decide (c' < length (chans r))%nat) as [Hlt|Hge].
    + rewrite lookup_app_l in Hc' by exact Hlt.
      destruct (Hc _ _ Hc') as (L & Hold & Hcur).
      split; [exact L|]. split; [|lia]. intros _.
      destruct (decide (c' = done r)) as [->|Hne]; [apply Hcur; [reflexivity|lia] | apply Hold; lia].
    + assert (c' = length (chans r)) as ->.
      { apply lookup_lt_Some in Hc'. rewrite length_app in Hc'. simpl in Hc'. lia. }
      rewrite lookup_app_r in Hc' by lia. rewrite Nat.sub_diag in Hc'.
      injection Hc' as <-. simpl. split; [reflexivity|]. split; [lia|].
      intros _. split; [discriminate|].
      flag_cases F; lia.
  - (* a receive that takes a buffered element: nothing is ever sent *)
    match goal with E : chans r !! _ = Some ?c, E' : ch_len ?c = S _ |- _ =>
      destruct (Hc _ _ E) as (L & _ & _); congruence end.
  - match goal with E : chans r !! _ = Some ?c, E' : ch_len ?c = S _ |- _ =>
      destruct (Hc _ _ E) as (L & _ & _); congruence end.
Qed.

Lemma Inv_step e r r' : Inv r -> step e r = Next r' -> Inv r'.
Proof.
  intros [F C] H. split; [eapply FlagInv_step | eapply ChanInv_step]; eassumption.
Qed.

Lemma Inv_new : Inv NewRescheduler.
Proof.
  split; constructor; simpl; try reflexivity; try lia; auto.
  intros [|c] ch H; simpl in H; [|discriminate].
  injection H as <-. simpl. split; [reflexivity|]. split; [lia|].
  intros _. unfold nT. simpl. split; [discriminate | lia].
Qed.

(** A property that every step preserves, in states that satisfy the
    invariant, holds along every schedule; likewise along schedules without
    [Run] calls when only the other events need to preserve it. *)
Section Along_a_schedule.

Variable P : Rescheduler -> Prop.

Hypothesis P_step :
  forall e r r', Inv r -> P r -> step e r = Next r' -> P r'.

Hypothesis P_step_quiet :
  forall e r r', Inv r -> P r -> e <> CallRun -> step e r = Next r' -> P r'.

Lemma exec_invariant sch : forall r r',
  Inv r -> P r -> exec sch r = Some r' -> P r'.
Proof.
  induction sch as [|e sch IH]; simpl; intros r r' I H E.
  - congruence.
  - destruct (step e r) as [r1| |] eqn:E1; try discriminate.
    eapply IH; [eapply Inv_step | eapply P_step | ]; eassumption.
Qed.

Lemma exec_invariant_no_Run sch : forall r r',
  Inv r -> P r -> calls_Run sch = 0%nat -> exec sch r = Some r' -> P r'.
Proof.
  induction sch as [|e sch IH]; simpl; intros r r' I H Hc E.
  - congruence.
  - destruct (step e r) as [r1| |] eqn:E1; try discriminate.
    assert (e <> CallRun /\ calls_Run sch = 0%nat) as [Hne Hc'].
    { destruct e; [discriminate | split; [discriminate | exact Hc]
                  | split; [discriminate | exact Hc] ]. }
    eapply IH; [eapply Inv_step | eapply P_step_quiet | | ]; eassumption.
Qed.

End Along_a_schedule.

Lemma Inv_exec sch r r' : Inv r -> exec sch r = Some r' -> Inv r'.
Proof.
  intros I. apply (exec_invariant Inv); [|exact I|exact I].
  intros e s s' _. apply Inv_step.
Qed.

Lemma reachable_Inv r : reachable r -> Inv r.
Proof. intros [sch H]. eapply Inv_exec; [apply Inv_new | exact H]. Qed.

(** In a reachable state the channel [r.done] exists, is empty, and is open
    unless a worker stands between [close] and [make]. *)
Lemma done_chan r :
  Inv r -> exists ch, chans r !! done r = Some ch /\ ch_len ch = 0%nat /\
                      (ch_closed ch = true <-> (0 < nT r ThMake)%nat).
Proof.
  intros [_ [Hh Hc]].
  destruct (lookup_lt_is_Some_2 (chans r) (done r)) as [ch E]; [lia|].
  exists ch. destruct (Hc _ _ E) as (L & _ & C). auto.
Qed.

Lemma step_other r r' e t :
  step e r = Next r' -> e <> Step t -> (t < length (threads r))%nat ->
  threads r' !! t = threads r !! t.
Proof.
  intros H Hne Hlt.
  assert (forall t0, e = Step t0 -> t0 <> t) by (intros t0 -> ->; congruence).
  step_inv H; fields;
    rewrite ?lookup_app_l by (rewrite ?length_insert; lia);
    rewrite ?list_lookup_insert_ne by (eauto); reflexivity.
Qed.

Lemma step_mono e r r' :
  Inv r -> step e r = Next r' ->
  (started r <= started r')%nat /\ (finished r <= finished r')%nat /\
  (done r <= done r')%nat.
Proof.
  intros [_ [Hh _]] H. step_inv H; fields; lia.
Qed.

Lemma exec_app s1 s2 r :
  exec (s1 ++ s2) r = match exec s1 r with Some r' => exec s2 r' | None => None end.
Proof.
  revert r. induction s1 as [|e s1 IH]; intros r; simpl; [reflexivity|].
  destruct (step e r); auto.
Qed.

Lemma calls_Run_app s1 s2 : calls_Run (s1 ++ s2) = (calls_Run s1 + calls_Run s2)%nat.
Proof.
  induction s1 as [|[] s1 IH]; simpl; [reflexivity | rewrite IH; lia | exact IH | exact IH].
Qed.

Lemma calls_Run_steps ts : calls_Run (Step <$> ts) = 0%nat.
Proof. induction ts as [|t ts IH]; simpl; [reflexivity | exact IH]. Qed.

Lemma in_first_call_reachable : reachable in_first_call.
Proof. exists first_run. reflexivity. Qed.

Lemma call_issued_reachable : reachable call_issued.
Proof. exists [CallRun]. reflexivity. Qed.

(** ** The encoding of the state and mutual exclusion *)

(** C9. In every reachable state the packed byte [me] is 0 (idle),
    1 ([R_RUNNING]) or 3 ([R_RUNNING|R_RERUN]); the value 2 does not occur:
    whenever the rerun flag is set the running flag is set too, and a worker
    (or the caller about to launch it) accounts for it. *)
Theorem me_encoding (r : Rescheduler) :
  reachable r ->
  (me r = IDLE \/ me r = RUNNING \/ me r = RUNNING_WITH_RERUN_PENDING) /\
  me r <> R_RERUN /\
  (Z.land (me r) R_RERUN <> 0 ->
   Z.land (me r) R_RUNNING = R_RUNNING /\
   (in_threadRun r + nR r RunGo = 1)%nat).
Proof.
  intros HR. apply reachable_Inv in HR. destruct HR as [F _].
  unfold IDLE, RUNNING, RUNNING_WITH_RERUN_PENDING, R_RERUN, R_RUNNING.
  flag_cases F; unfold R_RERUN, R_RUNNING; zeval; (split; [lia|]); (split; [lia|]); intros ?;
    try (exfalso; lia); (split; [reflexivity | lia]).
Qed.

Lemma me_encoding_witness :
  (me in_first_call = IDLE \/ me in_first_call = RUNNING
   \/ me in_first_call = RUNNING_WITH_RERUN_PENDING) /\
  me in_first_call <> R_RERUN /\
  (Z.land (me in_first_call) R_RERUN <> 0 ->
   Z.land (me in_first_call) R_RUNNING = R_RUNNING /\
   (in_threadRun in_first_call + nR in_first_call RunGo = 1)%nat).
Proof.
  apply (me_encoding in_first_call). exists first_run. reflexivity.
Defined.

(** C2. In every reachable state at most one goroutine is inside the
    caller's [call] function: the number of executions in progress
    ([started] minus [finished]) never exceeds one.  The reason is structural:
    together with a caller about to execute [go r.threadRun()] there is at
    most one goroutine inside [threadRun], a caller reaches the [go]
    statement only through the branch taken when [me] is idle, and when it
    launches the worker no other worker exists. *)
Theorem mutual_exclusion (r : Rescheduler) :
  reachable r ->
  (forall t1 t2,
     threads r !! t1 = Some (InThreadRun ThInCall) ->
     threads r !! t2 = Some (InThreadRun ThInCall) -> t1 = t2) /\
  (finished r <= started r <= finished r + 1)%nat /\
  (in_threadRun r + nR r RunGo <= 1)%nat /\
  (forall t, threads r !! t = Some (InRun RunSetRunning) -> me r = IDLE) /\
  (forall t, threads r !! t = Some (InRun RunGo) -> in_threadRun r = 0%nat).
Proof.
  intros HR. apply reachable_Inv in HR. destruct HR as [F _].
  assert (A : (nT r ThInCall <= 1)%nat /\ (in_threadRun r + nR r RunGo <= 1)%nat
              /\ (finished r <= started r <= finished r + 1)%nat
              /\ ((0 < nR r RunSetRunning)%nat -> me r = 0)).
  { flag_cases F; lia. }
  destruct A as (A1 & A2 & A3 & A4).
  split; [|split; [exact A3|split; [exact A2|split]]].
  - intros t1 t2 H1 H2. destruct (decide (t1 = t2)) as [|Hne]; [assumption|].
    pose proof (occ_lookup2 _ _ _ _ Hne H1 H2). unfold nT in A1. lia.
  - intros t Ht. apply A4. pose proof (occ_lookup _ _ _ Ht). unfold nR. lia.
  - intros t Ht. pose proof (occ_lookup _ _ _ Ht). unfold nR in A2. lia.
Qed.

Lemma mutual_exclusion_witness :
  (forall t1 t2,
     threads in_first_call !! t1 = Some (InThreadRun ThInCall) ->
     threads in_first_call !! t2 = Some (InThreadRun ThInCall) -> t1 = t2) /\
  (finished in_first_call <= started in_first_call <= finished in_first_call + 1)%nat /\
  (in_threadRun in_first_call + nR in_first_call RunGo <= 1)%nat /\
  (forall t, threads in_first_call !! t = Some (InRun RunSetRunning) ->
             me in_first_call = IDLE) /\
  (forall t, threads in_first_call !! t = Some (InRun RunGo) ->
             in_threadRun in_first_call = 0%nat).
Proof.
  apply (mutual_exclusion in_first_call). exists first_run. reflexivity.
Defined.

(** ** The transitions of [Run] and of the worker *)

(** C5. The transition function of [Run].  With the mutex free, a goroutine
    that calls [Run] on an idle instance sets [me] to running and launches
    exactly one worker, which stands at its first statement when [Run] has
    returned: [Run] does not wait for the work function ([started] and
    [finished] are unchanged).  On a running instance, with or without a
    pending rerun, it sets the rerun flag and returns; no goroutine is
    created. *)
Theorem Run_transition (r : Rescheduler) (t : nat) :
  threads r !! t = Some (InRun RunLock) -> lock r = false ->
  (me r = IDLE ->
   exec (steps t 5) r
   = Some (spawn (InThreadRun ThCall) (goto t Returned (set_me RUNNING r)))) /\
  (me r = RUNNING \/ me r = RUNNING_WITH_RERUN_PENDING ->
   exec (steps t 4) r
   = Some (goto t Returned (set_me RUNNING_WITH_RERUN_PENDING r))).
Proof.
  intros Ht Hl. unfold IDLE, RUNNING, RUNNING_WITH_RERUN_PENDING. split.
  - intros Hm. do 5 sym_step. state_eq.
  - intros [Hm|Hm]; do 4 sym_step; state_eq.
Qed.

Lemma Run_transition_witness :
  (threads call_issued !! 0%nat = Some (InRun RunLock) /\ lock call_issued = false) /\
  (me call_issued = IDLE ->
   exec (steps 0 5) call_issued
   = Some (spawn (InThreadRun ThCall) (goto 0 Returned (set_me RUNNING call_issued)))) /\
  (me call_issued = RUNNING \/ me call_issued = RUNNING_WITH_RERUN_PENDING ->
   exec (steps 0 4) call_issued
   = Some (goto 0 Returned (set_me RUNNING_WITH_RERUN_PENDING call_issued))).
Proof.
  split; [split; reflexivity|].
  apply (Run_transition call_issued 0); reflexivity.
Defined.

(** C4. The worker's step after each completion of the work function.  With
    the mutex free, the worker that has just returned from [call] takes the
    mutex and tests the rerun flag.  If it is clear, six statements later
    [me] is idle, the channel [r.done] has been closed, a fresh open channel
    has replaced it, the mutex is free and the worker has exited; every
    goroutine that was receiving from the old channel can now return.  If it
    is set, four statements later only that flag has been cleared, the mutex
    is free, and the same goroutine is back at the call of the work function:
    no goroutine has been created. *)
Theorem threadRun_cycle_step (r : Rescheduler) (t : nat) :
  reachable r ->
  threads r !! t = Some (InThreadRun ThLock) -> lock r = false ->
  if Z.land (me r) R_RERUN =? 0 then
    exists ch, chans r !! done r = Some ch /\ ch_closed ch = false /\
      let r' :=
        goto t Returned
          (set_done (length (chans r))
             (set_chans (<[done r := close_chan ch]> (chans r) ++ [make_chan 1])
                (set_me IDLE r))) in
      exec (steps t 6) r = Some r' /\
      forall w, threads r !! w = Some (InWait (WaitRecv (done r))) ->
                step (Step w) r' = Next (goto w Returned r')
  else
    me r = RUNNING_WITH_RERUN_PENDING /\
    exec (steps t 4) r = Some (goto t (InThreadRun ThCall) (set_me RUNNING r)).
Proof.
  intros HR Ht Hl. apply reachable_Inv in HR.
  destruct (done_chan r HR) as (ch & E & L & C). destruct HR as [F [Hh _]].
  pose proof (occ_lookup _ _ _ Ht).
  assert (Hc : ch_closed ch = false).
  { destruct (ch_closed ch); [|reflexivity].
    assert (0 < nT r ThMake)%nat by (apply C; reflexivity).
    flag_cases F; lia. }
  unfold IDLE, RUNNING, RUNNING_WITH_RERUN_PENDING.
  flag_cases F; try (exfalso; lia).
  - exists ch. split; [exact E|]. split; [exact Hc|]. split.
    + do 6 sym_step. state_eq.
    + intros w Hw. cbn [step]. fields.
      assert (w <> t) by (intros ->; congruence).
      rewrite list_lookup_insert_ne by congruence. rewrite Hw. cbn [Wait]. fields.
      rewrite lookup_app_l by (rewrite length_insert; lia).
      rewrite list_lookup_insert_eq by lia.
      unfold close_chan. cbn [ch_len ch_closed]. rewrite L. reflexivity.
  - split; [reflexivity|]. do 4 sym_step. state_eq.
Qed.

Lemma threadRun_cycle_step_witness :
  reachable first_call_done /\
  exists ch, chans first_call_done !! done first_call_done = Some ch /\
    ch_closed ch = false /\
    let r' :=
      goto 1 Returned
        (set_done (length (chans first_call_done))
           (set_chans (<[done first_call_done := close_chan ch]> (chans first_call_done)
                         ++ [make_chan 1])
              (set_me IDLE first_call_done))) in
    exec (steps 1 6) first_call_done = Some r' /\
    forall w, threads first_call_done !! w
              = Some (InWait (WaitRecv (done first_call_done))) ->
              step (Step w) r' = Next (goto w Returned r').
Proof.
  assert (HR : reachable first_call_done)
    by (exists (first_run ++ [Step 1]); reflexivity).
  split; [exact HR|].
  exact (threadRun_cycle_step first_call_done 1 HR eq_refl eq_refl).
Defined.

(** ** [Run] neither fails nor blocks *)

Lemma critical_locked r t g :
  FlagInv r -> threads r !! t = Some g -> is_critical g = true -> lock r = true.
Proof.
  intros F Ht Hc. pose proof (occ_lookup _ _ _ Ht).
  destruct (lock r) eqn:Hl; [reflexivity|]. exfalso.
  pose proof (inv_lock _ F) as HL. rewrite Hl in HL. census_unfold.
  destruct g as [[]|[]|[]|]; simpl in Hc; try discriminate; lia.
Qed.

Lemma locked_holder r :
  FlagInv r -> lock r = true ->
  exists h g, threads r !! h = Some g /\ is_critical g = true.
Proof.
  intros F Hl. pose proof (inv_lock _ F) as HL. rewrite Hl in HL.
  census_unfold.
  repeat match type of HL with
  | (_ + occ ?g ?l)%nat = 1%nat =>
      let E := fresh "E" in
      destruct (Nat.eq_dec (occ g l) 0%nat) as [E|E];
      [ rewrite E, Nat.add_0_r in HL
      | destruct (occ_pos g l) as [h Hh]; [lia|]; exists h, g; split; [exact Hh | reflexivity] ]
  end.
  destruct (occ_pos (InRun RunCheck) (threads r)) as [h Hh]; [lia|].
  eexists h, _. split; [exact Hh | reflexivity].
Qed.

(** No step of a reachable state panics: the mutex is only unlocked by the
    goroutine that locked it, and a channel is closed once. *)
Lemma no_panic r e : Inv r -> step e r <> Panic.
Proof.
  intros I. destruct (done_chan r I) as (ch & E & L & C). destruct I as [F _].
  destruct e as [| |t]; simpl; try discriminate.
  destruct (threads r !! t) as [g|] eqn:Ht; [|discriminate].
  pose proof (occ_lookup _ _ _ Ht).
  destruct (is_critical g) eqn:Hc.
  - destruct g as [[]|[]|[]|]; simpl in Hc |- *; try discriminate;
      unfold Unlock; rewrite ?(critical_locked r t _ F Ht eq_refl); try discriminate;
      repeat match goal with |- context [if ?b then _ else _] => destruct b end;
      try discriminate.
    rewrite E. destruct (ch_closed ch) eqn:Hcl; [|discriminate].
    exfalso. assert (0 < nT r ThMake)%nat by (apply C; reflexivity).
    flag_cases F; lia.
  - destruct g as [[]|[]|[|c]|]; simpl in Hc |- *; try discriminate;
      repeat match goal with |- context [if ?b then _ else _] => destruct b end;
      try discriminate.
    destruct (chans r !! c) as [ch'|]; [|discriminate].
    destruct (ch_len ch'); [|discriminate]. destruct (ch_closed ch'); discriminate.
Qed.

Tactic Notation "exit_with" integer(k) constr(n) :=
  exists n; eexists; split; [lia|];
  split; [do k sym_step; reflexivity|];
  fields; rewrite ?length_insert;
  split; [reflexivity|]; split; [reflexivity|]; split; [reflexivity|];
  split; [reflexivity|];
  intros; rewrite ?list_lookup_insert_ne by congruence; reflexivity.

(** A goroutine that holds the mutex releases it within five of its own
    steps, none of which executes [call]. *)
Lemma critical_exit r h g :
  Inv r -> threads r !! h = Some g -> is_critical g = true ->
  exists n r', (n <= 5)%nat /\ exec (steps h n) r = Some r' /\
    lock r' = false /\ started r' = started r /\ finished r' = finished r /\
    length (threads r') = length (threads r) /\
    forall t', t' <> h -> threads r' !! t' = threads r !! t'.
Proof.
  intros I Ht Hc. destruct (done_chan r I) as (ch & E & L & C).
  destruct I as [F _].
  pose proof (critical_locked r h g F Ht Hc) as Hl.
  pose proof (occ_lookup _ _ _ Ht).
  destruct (ch_closed ch) eqn:Hcl;
    [ assert (0 < nT r ThMake)%nat by (apply C; reflexivity) | ]; clear C.
  all: flag_cases F.
  all: destruct g as [[]|[]|[]|]; try discriminate Hc.
  all: try (exfalso; lia).
  all: first [ exit_with 1 1%nat | exit_with 2 2%nat | exit_with 3 3%nat
             | exit_with 4 4%nat | exit_with 5 5%nat ].
Qed.

Tactic Notation "return_with" integer(k) constr(n) :=
  exists n; eexists; split; [lia|];
  split; [do k sym_step; reflexivity|];
  fields; split; [lookup_self|]; split; reflexivity.

(** Once it holds the mutex, or finds it free, [Run] returns within five of
    its own steps. *)
Lemma Run_completes r t p :
  Inv r -> threads r !! t = Some (InRun p) ->
  (p = RunLock -> lock r = false) ->
  exists n r', (n <= 5)%nat /\ exec (steps t n) r = Some r' /\
    threads r' !! t = Some Returned /\
    started r' = started r /\ finished r' = finished r.
Proof.
  intros [F _] Ht Hfree. pose proof (occ_lookup _ _ _ Ht).
  destruct p.
  1: specialize (Hfree eq_refl).
  2-6: pose proof (critical_locked r t _ F Ht eq_refl).
  all: flag_cases F; try (exfalso; lia); try discriminate.
  all: first [ return_with 1 1%nat | return_with 2 2%nat | return_with 3 3%nat
             | return_with 4 4%nat | return_with 5 5%nat ].
Qed.

(** C8. [Run] is total and does not suspend its caller: in a reachable state
    no step panics, a goroutine inside [Run] can only be suspended at the
    mutex acquisition while another goroutine holds the mutex, and from every
    reachable state [Run] returns after at most ten steps (at most five of
    the mutex holder, at most five of its own), none of which executes the
    work function. *)
Theorem Run_total (r : Rescheduler) (t : nat) (p : RunPc) :
  reachable r -> threads r !! t = Some (InRun p) ->
  (forall e, step e r <> Panic) /\
  (step (Step t) r = Blocked -> p = RunLock /\ lock r = true) /\
  exists sch r', (length sch <= 10)%nat /\ exec sch r = Some r' /\
    threads r' !! t = Some Returned /\
    started r' = started r /\ finished r' = finished r.
Proof.
  intros HR Ht. apply reachable_Inv in HR.
  split; [intros e; apply no_panic; exact HR|]. split.
  - simpl. rewrite Ht. destruct p; simpl; unfold Unlock;
      repeat match goal with |- context [if ?b then _ else _] => destruct b eqn:? end;
      try discriminate; auto.
  - destruct (decide (p = RunLock /\ lock r = true)) as [[-> Hl]|Hn].
    + destruct (locked_holder r (proj1 HR) Hl) as (h & g & Hh & Hc).
      assert (Hne : t <> h) by (intros ->; rewrite Ht in Hh; injection Hh as <-; discriminate).
      destruct (critical_exit r h g HR Hh Hc) as (n1 & r1 & Hn1 & E1 & Hl1 & Hs1 & Hf1 & _ & Ho).
      assert (I1 : Inv r1) by (eapply Inv_exec; eassumption).
      assert (Ht1 : threads r1 !! t = Some (InRun RunLock)) by (rewrite Ho; assumption).
      destruct (Run_completes r1 t RunLock I1 Ht1 (fun _ => Hl1))
        as (n2 & r2 & Hn2 & E2 & Hr2 & Hs2 & Hf2).
      exists (steps h n1 ++ steps t n2), r2.
      split; [unfold steps; rewrite length_app, !length_replicate; lia|].
      split; [rewrite exec_app, E1; exact E2|].
      split; [exact Hr2|]. split; congruence.
    + destruct (Run_completes r t p HR Ht) as (n & r' & Hle & E & Hr & Hs & Hf).
      { intros ->. destruct (lock r); [exfalso; apply Hn; auto | reflexivity]. }
      exists (steps t n), r'. split; [unfold steps; rewrite length_replicate; lia|].
      auto.
Qed.

Lemma Run_total_witness :
  reachable call_issued /\
  (forall e, step e call_issued <> Panic) /\
  (step (Step 0) call_issued = Blocked -> RunLock = RunLock /\ lock call_issued = true) /\
  exists sch r', (length sch <= 10)%nat /\ exec sch call_issued = Some r' /\
    threads r' !! 0%nat = Some Returned /\
    started r' = started call_issued /\ finished r' = finished call_issued.
Proof.
  pose proof call_issued_reachable as HR.
  split; [exact HR|].
  exact (Run_total call_issued 0 RunLock HR eq_refl).
Defined.

(** ** Progress: a decreasing potential *)

Lemma potential_decreases r r' t g :
  FlagInv r -> threads r !! t = Some g -> working g = true ->
  step (Step t) r = Next r' -> (potential r' < potential r)%nat.
Proof.
  intros F Ht Hw H. simpl in H. rewrite Ht in H.
  pose proof (occ_lookup _ _ _ Ht).
  destruct g as [[]|[]|[]|]; try discriminate Hw; simpl in H; unfold Unlock in H;
    repeat match type of H with
    | (if ?b then _ else _) = _ => destruct b eqn:?; try discriminate
    | match ?x with _ => _ end = _ => destruct x eqn:?; try discriminate
    end; injection H as <-.
  all: flag_cases F; try discriminate.
  all: unfold potential; census_goal; lia.
Qed.

(** A goroutine inside [Run] or [threadRun] can take its next step whenever
    the mutex is free or it holds the mutex itself. *)
Lemma working_enabled r t g :
  Inv r -> threads r !! t = Some g -> working g = true ->
  lock r = false \/ is_critical g = true ->
  exists r', step (Step t) r = Next r'.
Proof.
  intros I Ht Hw Hl. pose proof (no_panic r (Step t) I) as NP.
  destruct (step (Step t) r) as [r'| |] eqn:E; [eauto| |congruence].
  exfalso. simpl in E. rewrite Ht in E.
  destruct g as [[]|[]|[]|]; try discriminate Hw; simpl in E; unfold Unlock in E;
    repeat match type of E with
    | (if ?b then _ else _) = _ => destruct b eqn:?; try discriminate
    | match ?x with _ => _ end = _ => destruct x eqn:?; try discriminate
    end;
    try discriminate E;
    (destruct Hl as [Hl|Hl]; [congruence | discriminate Hl]).
Qed.

Lemma quiescent_or_working r :
  Inv r ->
  quiescent r \/
  exists t g, threads r !! t = Some g /\ working g = true /\
              (lock r = false \/ is_critical g = true).
Proof.
  intros I. destruct (lock r) eqn:Hl.
  - right. destruct (locked_holder r (proj1 I) Hl) as (h & g & Hh & Hc).
    exists h, g. split; [exact Hh|]. split; [|auto].
    destruct g as [[]|[]|[]|]; try discriminate Hc; reflexivity.
  - destruct (Nat.eq_dec (in_Run r + in_threadRun r)%nat 0%nat) as [E|E].
    + left. split; lia.
    + right. assert (H : (0 < in_Run r + in_threadRun r)%nat) by lia.
      clear E. unfold in_Run, in_threadRun, nR, nT in H.
      rewrite !Nat.add_assoc in H.
      find_goroutine H; eexists _, _; (split; [eassumption|]); split; auto.
Qed.

Lemma quiescent_idle r : FlagInv r -> quiescent r -> me r = IDLE /\ lock r = false.
Proof.
  intros F [Q1 Q2]. unfold IDLE. flag_cases F; (split; [lia|]); try reflexivity; lia.
Qed.


(** Without further calls the goroutines inside [Run] and [threadRun] run
    to completion: there is a schedule of their steps, no longer than the
    potential, after which the instance is quiescent; goroutines inside
    [Wait] are not scheduled. *)
Lemma drain n : forall r,
  Inv r -> (potential r <= n)%nat ->
  exists ts r', exec (Step <$> ts) r = Some r' /\ (length ts <= n)%nat /\
    quiescent r' /\
    (forall w p, threads r !! w = Some (InWait p) -> threads r' !! w = Some (InWait p)).
Proof.
  induction n as [|n IH]; intros r I Hp.
  - destruct (quiescent_or_working r I) as [Q|(t & g & Ht & Hw & Hl)].
    + exists [], r. simpl. auto.
    + destruct (working_enabled r t g I Ht Hw Hl) as [r1 E].
      pose proof (potential_decreases r r1 t g (proj1 I) Ht Hw E). lia.
  - destruct (quiescent_or_working r I) as [Q|(t & g & Ht & Hw & Hl)].
    + exists [], r. simpl. split; [reflexivity|]. split; [lia|]. auto.
    + destruct (working_enabled r t g I Ht Hw Hl) as [r1 E].
      pose proof (potential_decreases r r1 t g (proj1 I) Ht Hw E).
      destruct (IH r1) as (ts & r' & E' & Hlen & Q & Hwait);
        [eapply Inv_step; eassumption | lia |].
      exists (t :: ts), r'.
      split; [change (exec (Step t :: (Step <$> ts)) r = Some r');
              cbn [exec]; rewrite E; exact E'|].
      split; [simpl; lia|]. split; [exact Q|].
      intros w p Hwp. apply Hwait.
      rewrite (step_other r r1 (Step t) w E);
        [exact Hwp | | eapply lookup_lt_Some; eassumption].
      intros [= ->]. rewrite Ht in Hwp. injection Hwp as ->. discriminate.
Qed.

(** ** Requests are served *)

Section Coverage.

(** The number of executions that had started when the request was made. *)
Variable k : nat.

Lemma covered_step e r r' :
  FlagInv r -> covered k r -> step e r = Next r' -> covered k r'.
Proof.
  intros F C H. step_inv H.
  all: try (pose proof (occ_lookup _ _ _ Ht)).
  all: unfold covered, will_start in *.
  all: flag_cases F; try discriminate.
  all: census_goal; lia.
Qed.

Lemma covered_idle r : FlagInv r -> covered k r -> me r = IDLE -> (k + 1 <= finished r)%nat.
Proof.
  intros F C Hi. unfold IDLE in Hi. unfold covered, will_start in C.
  flag_cases F; try discriminate; lia.
Qed.

(** The request of a goroutine stays covered: its write to [me] either
    starts a worker or sets the rerun flag of the running one. *)
Lemma requested_step t e r r' :
  Inv r -> requested k t r -> step e r = Next r' -> requested k t r'.
Proof.
  intros I [Hk Hm] H.
  pose proof (step_mono e r r' I H) as (Hs & _ & _).
  split; [lia|]. destruct I as [F _].
  pose proof (fun C => covered_step e r r' F C H) as CS.
  destruct (decide (e = Step t)) as [->|Hne].
  - step_inv H; rewrite ?Ht in Hm; cbv beta iota in Hm; try contradiction.
    all: fields; rewrite ?lookup_app_l
           by (rewrite ?length_insert; eapply lookup_lt_Some; eassumption).
    all: rewrite list_lookup_insert_eq by (eapply lookup_lt_Some; eassumption).
    all: try exact I; try (apply CS; exact Hm).
    all: pose proof (occ_lookup _ _ _ Ht).
    all: unfold covered, will_start in *.
    all: flag_cases F; try discriminate.
    all: census_goal; lia.
  - destruct (threads r !! t) as [g|] eqn:Et; [|contradiction].
    rewrite (step_other r r' e t H Hne) by (eapply lookup_lt_Some; eassumption).
    rewrite Et. destruct g as [[]|[]|[]|]; auto.
Qed.

Lemma requested_exec t sch r r' :
  Inv r -> requested k t r -> exec sch r = Some r' -> requested k t r'.
Proof.
  apply (exec_invariant (requested k t)). intros e. apply requested_step.
Qed.

Lemma requested_returned t r :
  requested k t r -> threads r !! t = Some Returned -> covered k r.
Proof. intros [_ H] Ht. rewrite Ht in H. exact H. Qed.

Lemma waiting_step w e r r' :
  Inv r -> waiting k w r -> step e r = Next r' -> waiting k w r'.
Proof.
  intros I [C Hm] H.
  pose proof (step_mono e r r' I H) as (Hs & Hf & Hd).
  pose proof (covered_step e r r' (proj1 I) C H) as C'.
  split; [exact C'|]. destruct I as [F [Hh Hc]].
  destruct (decide (e = Step w)) as [->|Hne].
  - step_inv H; rewrite ?Ht in Hm; cbv beta iota in Hm; try contradiction.
    all: self_lookup.
    + split; [lia|]. unfold nT; fields; census_rw.
      intros [?|HM]; [lia|]. unfold covered, will_start in C.
      flag_cases F; lia.
    + match goal with E : chans r !! _ = Some ?c |- _ =>
        destruct (Hc _ _ E) as (_ & Hlt & Heq) end.
      destruct Hm as [Hle Hm]. apply Hm.
      destruct (decide (c = done r)) as [->|]; [right; apply Heq; auto | left; lia].
    + match goal with E : chans r !! _ = Some ?c |- _ =>
        destruct (Hc _ _ E) as (L & _ & _); congruence end.
  - destruct (threads r !! w) as [g|] eqn:Ew; [|contradiction].
    rewrite (step_other r r' e w H Hne) by (eapply lookup_lt_Some; eassumption).
    rewrite Ew. destruct g as [[]|[]|[|c]|]; auto; [|lia].
    destruct Hm as [Hle Hm]. split; [lia|].
    step_inv H; fields; unfold nT in *; fields; census_rw; try exact Hm.
    all: pose proof (occ_lookup _ _ _ Ht); unfold covered, will_start in C.
    all: flag_cases F; try discriminate; lia.
Qed.

Lemma covered_waiting r :
  covered k r -> waiting k (length (threads r)) (spawn (InWait WaitRead) r).
Proof.
  intros C. split.
  - unfold covered, will_start, nR, nT in *. fields. census_rw. exact C.
  - fields. rewrite lookup_spawned. exact I.
Qed.

End Coverage.

Lemma requested_at_call r t :
  threads r !! t = Some (InRun RunLock) -> requested (started r) t r.
Proof. intros Ht. split; [lia|]. rewrite Ht. exact I. Qed.

(** When nobody is inside [Run] or [threadRun] any more, the call has
    returned and its request has been served. *)
Lemma requested_quiescent k t r :
  Inv r -> requested k t r -> quiescent r ->
  threads r !! t = Some Returned /\ (k + 1 <= finished r)%nat.
Proof.
  intros I R Q. destruct (quiescent_idle r (proj1 I) Q) as [Hidle _].
  assert (Hret : threads r !! t = Some Returned).
  { destruct R as [_ R]. destruct Q as [Q _]. unfold in_Run, nR in Q.
    destruct (threads r !! t) as [[p|p|p|]|] eqn:Et; try contradiction;
      [|reflexivity].
    pose proof (occ_lookup _ _ _ Et). destruct p; lia. }
  split; [exact Hret|].
  apply covered_idle; [exact (proj1 I) | | exact Hidle].
  eapply requested_returned; eassumption.
Qed.

(** C7. No request is dropped.  Let goroutine [t] call [Run] in a reachable
    state in which [started r] executions of the work function have started;
    execution number [started r + 1] then starts after the call.  Whatever
    happens next:
    - once the call has returned, the instance is not idle before that
      execution has completed;
    - as long as that execution has not completed, some goroutine inside
      [Run] or [threadRun] can take a step, and the step lowers the
      potential, which only further [Run] calls raise: the request cannot be
      left unserved with nothing to do;
    - from every later state there is a continuation without further calls,
      no longer than the potential, at the end of which the call has
      returned and that execution has completed.
    The work function is assumed to return. *)
Theorem no_request_dropped (r : Rescheduler) (t : nat) :
  reachable r -> threads r !! t = Some (InRun RunLock) ->
  (forall sch r', exec sch r = Some r' -> threads r' !! t = Some Returned ->
     me r' = IDLE -> (started r + 1 <= finished r')%nat) /\
  (forall sch r', exec sch r = Some r' -> (finished r' < started r + 1)%nat ->
     exists t' r'', step (Step t') r' = Next r'' /\
       (potential r'' < potential r')%nat) /\
  (forall sch r', exec sch r = Some r' ->
     exists ts r'', (length ts <= potential r')%nat /\
       exec (Step <$> ts) r' = Some r'' /\
       threads r'' !! t = Some Returned /\
       (started r + 1 <= finished r'')%nat).
Proof.
  intros HR Ht. apply reachable_Inv in HR.
  pose proof (requested_at_call r t Ht) as R. split; [|split].
  - intros sch r' E Hret Hidle.
    pose proof (Inv_exec sch r r' HR E) as I'.
    pose proof (requested_exec _ _ sch r r' HR R E) as R'.
    apply covered_idle; [exact (proj1 I') | | exact Hidle].
    eapply requested_returned; eassumption.
  - intros sch r' E Hun.
    pose proof (Inv_exec sch r r' HR E) as I'.
    pose proof (requested_exec _ _ sch r r' HR R E) as R'.
    destruct (quiescent_or_working r' I') as [Q|(t' & g & Ht' & Hw & Hl)].
    + destruct (requested_quiescent _ _ _ I' R' Q) as [_ Hserved]. lia.
    + destruct (working_enabled r' t' g I' Ht' Hw Hl) as [r'' E'].
      exists t', r''. split; [exact E'|].
      exact (potential_decreases r' r'' t' g (proj1 I') Ht' Hw E').
  - intros sch r' E.
    pose proof (Inv_exec sch r r' HR E) as I'.
    pose proof (requested_exec _ _ sch r r' HR R E) as R'.
    destruct (drain (potential r') r' I' (le_n _)) as (ts & r'' & E' & Hlen & Q & _).
    pose proof (Inv_exec _ r' r'' I' E') as I''.
    pose proof (requested_exec _ _ _ r' r'' I' R' E') as R2.
    exists ts, r''. split; [exact Hlen|]. split; [exact E'|].
    exact (requested_quiescent _ _ _ I'' R2 Q).
Qed.

Lemma no_request_dropped_witness :
  reachable call_issued /\
  (forall sch r', exec sch call_issued = Some r' ->
     threads r' !! 0%nat = Some Returned ->
     me r' = IDLE -> (started call_issued + 1 <= finished r')%nat) /\
  (forall sch r', exec sch call_issued = Some r' ->
     (finished r' < started call_issued + 1)%nat ->
     exists t' r'', step (Step t') r' = Next r'' /\
       (potential r'' < potential r')%nat) /\
  (forall sch r', exec sch call_issued = Some r' ->
     exists ts r'', (length ts <= potential r')%nat /\
       exec (Step <$> ts) r' = Some r'' /\
       threads r'' !! 0%nat = Some Returned /\
       (started call_issued + 1 <= finished r'')%nat).
Proof.
  pose proof call_issued_reachable as HR.
  split; [exact HR|].
  exact (no_request_dropped call_issued 0 HR eq_refl).
Defined.

(** ** [Wait] after [Run] *)

(** C6. Wait correctness.  Let goroutine [t] call [Run] when [started r]
    executions of the work function have started, and let a [Wait] call be
    issued after that [Run] call has returned.  When the [Wait] call returns,
    execution number [started r + 1] (the one the [Run] call launched, or
    the rerun it flagged) has completed.  This holds for every schedule, in
    particular when no other [Run] call is made during the wait. *)
Theorem wait_correctness (r r1 r2 : Rescheduler) (t : nat) (sch1 sch2 : list event) :
  reachable r -> threads r !! t = Some (InRun RunLock) ->
  exec sch1 r = Some r1 -> threads r1 !! t = Some Returned ->
  exec (CallWait :: sch2) r1 = Some r2 ->
  threads r2 !! length (threads r1) = Some Returned ->
  (started r + 1 <= finished r2)%nat.
Proof.
  intros HR Ht E1 Hret E2 Hw. apply reachable_Inv in HR.
  pose proof (Inv_exec sch1 r r1 HR E1) as I1.
  pose proof (requested_exec _ _ sch1 r r1 HR (requested_at_call r t Ht) E1) as R1.
  pose proof (requested_returned _ _ _ R1 Hret) as C1.
  cbn [exec step] in E2.
  assert (I2 : Inv (spawn (InWait WaitRead) r1))
    by (eapply (Inv_step CallWait); [exact I1 | reflexivity]).
  pose proof (exec_invariant (waiting (started r) (length (threads r1)))
                (fun e => waiting_step _ _ e) sch2 _ r2 I2
                (covered_waiting _ _ C1) E2) as [_ W].
  rewrite Hw in W. exact W.
Qed.

Lemma wait_correctness_witness :
  exec (steps 0 5) call_issued = Some first_run_returned /\
  exec (CallWait :: wait_through_cycle) first_run_returned = Some after_first_cycle /\
  (started call_issued + 1 <= finished after_first_cycle)%nat.
Proof.
  split; [reflexivity|]. split; [reflexivity|].
  apply (wait_correctness call_issued first_run_returned after_first_cycle 0
           (steps 0 5) wait_through_cycle).
  - exact call_issued_reachable.
  - reflexivity.
  - reflexivity.
  - reflexivity.
  - reflexivity.
  - reflexivity.
Defined.

(** ** [Wait] on an idle instance *)





Lemma parked_step d w e r r' :
  Inv r -> parked d w r -> e <> CallRun -> step e r = Next r' -> parked d w r'.
Proof.
  intros I (Q & Hd & Hw) Hne H.
  destruct (quiescent_idle r (proj1 I) Q) as [Hi Hl]. unfold IDLE in Hi.
  destruct (done_chan r I) as (ch & Ech & L & C).
  assert (Hopen : ch_closed ch = false).
  { destruct (ch_closed ch); [|reflexivity].
    assert (0 < nT r ThMake)%nat by (apply C; reflexivity).
    destruct Q as [_ Q]. unfold in_threadRun in Q. lia. }
  destruct Q as [Q1 Q2].
  assert (Hlt : (w < length (threads r))%nat)
    by (destruct Hw as [Hw|Hw]; eapply lookup_lt_Some; eassumption).
  unfold parked, quiescent.
  destruct (decide (e = Step w)) as [->|Hnw].
  - step_inv H; destruct Hw as [Hw|Hw]; try congruence.
    + fields. rewrite list_lookup_insert_eq by exact Hlt.
      unfold in_Run, in_threadRun, nR, nT in *. fields. census_rw.
      rewrite Hd. auto.
  - rewrite (step_other r r' e w H Hnw Hlt).
    step_inv H; try congruence.
    all: try (pose proof (occ_lookup _ _ _ Ht)).
    all: unfold in_Run, in_threadRun, nR, nT in *; fields; census_rw.
    all: try (exfalso; lia).
    all: auto.
Qed.

(** On a quiescent instance a [Wait] call does not return as long as [Run]
    is not called. *)
Lemma wait_blocks_without_Run r sch r' :
  Inv r -> quiescent r -> calls_Run sch = 0%nat ->
  exec (CallWait :: sch) r = Some r' ->
  threads r' !! length (threads r) <> Some Returned.
Proof.
  intros I Q Hc E. cbn [exec step] in E.
  assert (I2 : Inv (spawn (InWait WaitRead) r))
    by (eapply (Inv_step CallWait); [exact I | reflexivity]).
  assert (P : parked (done r) (length (threads r)) (spawn (InWait WaitRead) r)).
  { split; [|split; [reflexivity|]].
    - destruct Q as [Q1 Q2]. unfold quiescent, in_Run, in_threadRun, nR, nT in *.
      fields. census_rw. auto.
    - left. fields. apply lookup_spawned. }
  destruct (exec_invariant_no_Run (parked (done r) (length (threads r)))
              (fun e => parked_step _ _ e) sch _ r' I2 P Hc E) as (_ & _ & [Hw|Hw]);
    rewrite Hw; discriminate.
Qed.


Lemma cycle_pending_step d e r r' :
  Inv r -> cycle_pending d r -> step e r = Next r' -> cycle_pending d r'.
Proof.
  intros I [Hd P] H.
  pose proof (step_mono e r r' I H) as (_ & _ & Hd').
  split; [lia|]. destruct I as [F [Hh _]].
  step_inv H.
  all: try (pose proof (occ_lookup _ _ _ Ht)).
  all: flag_cases F; try discriminate.
  all: census_goal; lia.
Qed.




(** ** Bursts of [Run] calls *)

Lemma spread_burst_run :
  exec spread_burst in_first_call
  = Some {| lock := false; me := 0; done := 1;
            chans := [Chan 1 0 true; make_chan 1];
            threads := [Returned; Returned; Returned; Returned];
            started := 3; finished := 3 |}.
Proof. reflexivity. Qed.

(** C1, counterexample.  Two [Run] calls, both made while the instance is not
    idle, one during the first execution and one during the rerun: the work
    function is executed three times, so two executions follow the current
    one. *)
Lemma burst_not_coalesced : ~ coalescing_as_stated.
Proof.
  intros H.
  pose proof (H in_first_call spread_burst _ in_first_call_reachable
                eq_refl eq_refl ltac:(vm_compute; lia) eq_refl
                spread_burst_run ltac:(split; reflexivity)) as E.
  discriminate E.
Qed.

Lemma rerun_noted_step s0 e r r' :
  Inv r -> rerun_noted s0 r -> step e r = Next r' -> rerun_noted s0 r'.
Proof.
  intros I [Hs P] H.
  pose proof (step_mono e r r' I H) as (Hs' & _ & _).
  split; [lia|]. destruct I as [F _].
  unfold RUNNING_WITH_RERUN_PENDING in *.
  step_inv H.
  all: try (pose proof (occ_lookup _ _ _ Ht)).
  all: flag_cases F; try discriminate.
  all: census_goal; lia.
Qed.

Lemma rerun_noted_exec s0 sch : forall r r',
  Inv r -> (s0 <= started r)%nat -> (1 <= calls_Run sch)%nat ->
  exec sch r = Some r' -> rerun_noted s0 r'.
Proof.
  induction sch as [|e sch IH]; simpl; intros r r' I Hs Hc E; [lia|].
  destruct (step e r) as [r1| |] eqn:E1; try discriminate.
  pose proof (Inv_step _ _ _ I E1) as I1.
  pose proof (step_mono e r r1 I E1) as (Hs1 & _ & _).
  destruct e as [| |t].
  - eapply (exec_invariant (rerun_noted s0) (fun e => rerun_noted_step s0 e));
      [exact I1 | | exact E].
    injection E1 as <-. split; [fields; lia|]. intros _ _. left.
    unfold in_Run, nR. fields. census_rw. lia.
  - eapply IH; [exact I1 | lia | exact Hc | exact E].
  - eapply IH; [exact I1 | lia | exact Hc | exact E].
Qed.

Lemma settles_step n e r r' :
  Inv r -> settles n r -> e <> CallRun -> step e r = Next r' -> settles n r'.
Proof.
  intros [F _] [Q S] Hne H. unfold settles, owed in *.
  step_inv H; try congruence.
  all: try (pose proof (occ_lookup _ _ _ Ht)).
  all: flag_cases F; try discriminate.
  all: census_goal; lia.
Qed.

(** C1, amended.  While the worker executes the work function, let any
    number [N >= 1] of [Run] calls be made, and let every call have returned
    while that execution is still in progress.  If no further call is made,
    then when the instance is idle again the worker has started exactly one
    further execution: two executions in all have finished since the burst
    began, whatever [N] is. *)
Theorem burst_coalescing (r r1 r2 : Rescheduler) (sch1 sch2 : list event) :
  reachable r -> nT r ThInCall = 1%nat ->
  exec sch1 r = Some r1 -> (1 <= calls_Run sch1)%nat ->
  in_Run r1 = 0%nat -> started r1 = started r -> nT r1 ThInCall = 1%nat ->
  exec sch2 r1 = Some r2 -> calls_Run sch2 = 0%nat -> me r2 = IDLE ->
  started r2 = (started r + 1)%nat /\ finished r2 = (finished r + 2)%nat.
Proof.
  intros HR Hin E1 HN Hq1 Hs1 Hin1 E2 Hc2 Hidle.
  apply reachable_Inv in HR.
  pose proof (Inv_exec _ _ _ HR E1) as I1.
  pose proof (Inv_exec _ _ _ I1 E2) as I2.
  destruct (rerun_noted_exec (started r) sch1 r r1 HR (le_n _) HN E1) as [_ P].
  specialize (P Hs1 Hin1). destruct P as [P|P]; [lia|].
  assert (S1 : settles (started r + 1) r1).
  { split; [exact Hq1|]. unfold owed. destruct I1 as [F1 _].
    unfold RUNNING_WITH_RERUN_PENDING in P.
    flag_cases F1; try discriminate; lia. }
  pose proof (exec_invariant_no_Run (settles (started r + 1))
                (fun e => settles_step _ e) sch2 r1 r2 I1 S1 Hc2 E2) as [Q2 S2].
  destruct HR as [F _]. destruct I2 as [F2 _].
  pose proof (inv_calls _ F) as C0. pose proof (inv_calls _ F2) as C2.
  unfold owed, IDLE in *. clear I1.
  flag_cases F2; try discriminate; lia.
Qed.

Lemma burst_coalescing_witness :
  exec burst_of_two in_first_call = Some burst_noted /\
  calls_Run burst_of_two = 2%nat /\
  exec (steps 1 13) burst_noted = Some after_burst /\
  started after_burst = (started in_first_call + 1)%nat /\
  finished after_burst = (finished in_first_call + 2)%nat.
Proof.
  split; [reflexivity|]. split; [reflexivity|]. split; [reflexivity|].
  apply (burst_coalescing in_first_call burst_noted after_burst
           burst_of_two (steps 1 13)).
  - exact in_first_call_reachable.
  - reflexivity.
  - reflexivity.
  - vm_compute. lia.
  - reflexivity.
  - reflexivity.
  - reflexivity.
  - reflexivity.
  - reflexivity.
  - reflexivity.
Defined.

(* ================================================================= *)
(** * Further properties of [Run], [threadRun] and [Wait] *)

(** ** Reachable example states *)

Lemma setting_running_reachable : reachable setting_running.
Proof. exists (CallRun :: steps 0 2). reflexivity. Qed.

Lemma first_run_returned_reachable : reachable first_run_returned.
Proof. exists (CallRun :: steps 0 5). reflexivity. Qed.

Lemma after_first_cycle_reachable : reachable after_first_cycle.
Proof. exists run_and_wait. reflexivity. Qed.

Lemma signalling_reachable : reachable signalling.
Proof. exists (first_run ++ steps 1 5). reflexivity. Qed.

Lemma new_reachable : reachable NewRescheduler.
Proof. exists []. reflexivity. Qed.

(** ** The state machine and the mutex *)

(** X1. The state machine of [me].  A step of a reachable state leaves [me]
    unchanged or is one of four transitions, each made by the goroutine that
    holds the mutex: idle to running ([r.me = R_RUNNING] in [Run]), running
    to rerun pending ([r.me |= R_RERUN]), rerun pending to running
    ([r.me ^= R_RERUN]), and running to idle ([r.me = 0]).  In particular the
    assignment [r.me = 0] never erases a pending rerun. *)
Theorem me_transitions (r r' : Rescheduler) (e : event) :
  reachable r -> step e r = Next r' ->
  me r' = me r \/
  exists t, e = Step t /\ lock r = true /\
    ((threads r !! t = Some (InRun RunSetRunning) /\
      me r = IDLE /\ me r' = RUNNING) \/
     (threads r !! t = Some (InRun RunSetRerun) /\
      me r = RUNNING /\ me r' = RUNNING_WITH_RERUN_PENDING) \/
     (threads r !! t = Some (InThreadRun ThFlip) /\
      me r = RUNNING_WITH_RERUN_PENDING /\ me r' = RUNNING) \/
     (threads r !! t = Some (InThreadRun ThClear) /\
      me r = RUNNING /\ me r' = IDLE)).
Proof.
  intros HR H. apply reachable_Inv in HR. destruct HR as [F _].
  unfold IDLE, RUNNING, RUNNING_WITH_RERUN_PENDING.
  step_inv H; try (left; reflexivity).
  all: pose proof (critical_locked r t _ F Ht eq_refl) as Hl.
  all: pose proof (occ_lookup _ _ _ Ht).
  all: flag_cases F; try discriminate; try (exfalso; lia).
  all: try (left; reflexivity).
  all: right; exists t; split; [reflexivity|]; split; [reflexivity|];
       unfold R_RUNNING, R_RERUN; zeval; tauto.
Qed.

Lemma me_transitions_witness :
  step (Step 0) setting_running = Next (goto 0 (InRun RunUnlock) (set_me 1 setting_running)) /\
  (me (goto 0 (InRun RunUnlock) (set_me 1 setting_running)) = me setting_running \/
   exists t, Step 0 = Step t /\ lock setting_running = true /\
     ((threads setting_running !! t = Some (InRun RunSetRunning) /\
       me setting_running = IDLE /\
       me (goto 0 (InRun RunUnlock) (set_me 1 setting_running)) = RUNNING) \/
      (threads setting_running !! t = Some (InRun RunSetRerun) /\
       me setting_running = RUNNING /\
       me (goto 0 (InRun RunUnlock) (set_me 1 setting_running))
       = RUNNING_WITH_RERUN_PENDING) \/
      (threads setting_running !! t = Some (InThreadRun ThFlip) /\
       me setting_running = RUNNING_WITH_RERUN_PENDING /\
       me (goto 0 (InRun RunUnlock) (set_me 1 setting_running)) = RUNNING) \/
      (threads setting_running !! t = Some (InThreadRun ThClear) /\
       me setting_running = RUNNING /\
       me (goto 0 (InRun RunUnlock) (set_me 1 setting_running)) = IDLE))).
Proof.
  split; [reflexivity|].
  apply (me_transitions setting_running _ (Step 0));
    [exact setting_running_reachable | reflexivity].
Defined.

Lemma critical_census r t g :
  threads r !! t = Some g -> is_critical g = true -> (1 <= in_critical r)%nat.
Proof.
  intros Ht Hc. pose proof (occ_lookup _ _ _ Ht). census_unfold.
  destruct g as [[]|[]|[]|]; try discriminate Hc; lia.
Qed.

Lemma critical_census2 r t1 t2 g1 g2 :
  t1 <> t2 -> threads r !! t1 = Some g1 -> threads r !! t2 = Some g2 ->
  is_critical g1 = true -> is_critical g2 = true -> (2 <= in_critical r)%nat.
Proof.
  intros Hne H1 H2 C1 C2.
  destruct (decide (g1 = g2)) as [->|Hg].
  - pose proof (occ_lookup2 _ _ _ _ Hne H1 H2). census_unfold.
    destruct g2 as [[]|[]|[]|]; try discriminate C2; lia.
  - pose proof (occ_lookup _ _ _ H1). pose proof (occ_lookup _ _ _ H2).
    census_unfold.
    destruct g1 as [[]|[]|[]|]; try discriminate C1;
      destruct g2 as [[]|[]|[]|]; try discriminate C2; try congruence; lia.
Qed.

(** X2. Mutex discipline.  In every reachable state the mutex is locked
    exactly when some goroutine is between [Lock] and [Unlock], at most one
    goroutine is there, and every step that changes [me], [r.done] or a
    channel is a step of that goroutine: the fields are only written under
    the mutex. *)
Theorem lock_discipline (r : Rescheduler) :
  reachable r ->
  (lock r = true <->
   exists t g, threads r !! t = Some g /\ is_critical g = true) /\
  (forall t1 t2 g1 g2,
     threads r !! t1 = Some g1 -> threads r !! t2 = Some g2 ->
     is_critical g1 = true -> is_critical g2 = true -> t1 = t2) /\
  (forall e r', step e r = Next r' ->
     me r' <> me r \/ done r' <> done r \/ chans r' <> chans r ->
     exists t g, e = Step t /\ threads r !! t = Some g /\ is_critical g = true).
Proof.
  intros HR. apply reachable_Inv in HR. destruct HR as [F [Hh Hc]].
  pose proof (inv_lock _ F) as HL. split; [|split].
  - split.
    + apply locked_holder. exact F.
    + intros (t & g & Ht & Hg). eapply critical_locked; eassumption.
  - intros t1 t2 g1 g2 H1 H2 C1 C2.
    destruct (decide (t1 = t2)) as [|Hne]; [assumption|].
    pose proof (critical_census2 r t1 t2 g1 g2 Hne H1 H2 C1 C2).
    destruct (lock r); lia.
  - intros e r' H Hch.
    step_inv H; fields.
    all: try (exfalso; destruct Hch as [Hch|[Hch|Hch]]; congruence).
    all: try (eexists _, _; split; [reflexivity|]; split; [eassumption|reflexivity]).
    match goal with E : chans r !! _ = Some ?c, E' : ch_len ?c = S _ |- _ =>
      destruct (Hc _ _ E) as (L & _ & _); congruence end.
Qed.

Lemma lock_discipline_witness :
  reachable setting_running /\
  (lock setting_running = true <->
   exists t g, threads setting_running !! t = Some g /\ is_critical g = true) /\
  (forall t1 t2 g1 g2,
     threads setting_running !! t1 = Some g1 ->
     threads setting_running !! t2 = Some g2 ->
     is_critical g1 = true -> is_critical g2 = true -> t1 = t2) /\
  (forall e r', step e setting_running = Next r' ->
     me r' <> me setting_running \/ done r' <> done setting_running
     \/ chans r' <> chans setting_running ->
     exists t g, e = Step t /\ threads setting_running !! t = Some g /\
                 is_critical g = true).
Proof.
  split; [exact setting_running_reachable|].
  apply (lock_discipline setting_running). exact setting_running_reachable.
Defined.

(** ** Channels and receivers *)

Lemma capacity_one_step e r r' :
  Inv r -> capacity_one r -> step e r = Next r' -> capacity_one r'.
Proof.
  intros [_ [Hh Hc]] P H. unfold capacity_one in *.
  step_inv H; fields; try exact P.
  - intros c' ch' E.
    destruct (decide (c' = done r)) as [->|Hne].
    + rewrite list_lookup_insert_eq in E by lia. injection E as <-.
      unfold close_chan. cbn [ch_cap]. eapply P; eassumption.
    + rewrite list_lookup_insert_ne in E by congruence. eapply P; eassumption.
  - intros c' ch' E. apply lookup_app_Some in E.
    destruct E as [E|[_ E]]; [eapply P; eassumption|].
    destruct (c' - length (chans r))%nat; simpl in E; [|discriminate].
    injection E as <-. reflexivity.
  - match goal with E : chans r !! _ = Some ?c, E' : ch_len ?c = S _ |- _ =>
      destruct (Hc _ _ E) as (L & _ & _); congruence end.
Qed.

Lemma capacity_one_reachable r : reachable r -> capacity_one r.
Proof.
  intros [sch E].
  eapply (exec_invariant capacity_one capacity_one_step); [apply Inv_new | | exact E].
  intros [|c] ch H; simpl in H; [|discriminate]. injection H as <-. reflexivity.
Qed.

(** A goroutine is at a receive either because it already was, or because
    it has just read [r.done]. *)
Lemma receive_origin e r r' w c :
  step e r = Next r' ->
  threads r' !! w = Some (InWait (WaitRecv c)) ->
  threads r !! w = Some (InWait (WaitRecv c)) \/ c = done r.
Proof.
  intros H E.
  step_inv H; fields.
  all: try (apply lookup_app_Some in E; destruct E as [E|[_ E]];
            [ | destruct (w - _)%nat; simpl in E; discriminate ]).
  all: try (left; exact E).
  all: destruct (decide (w = t)) as [->|Hne];
         [ rewrite list_lookup_insert_eq in E by (eapply lookup_lt_Some; eassumption);
           try discriminate E
         | rewrite list_lookup_insert_ne in E by congruence; left; exact E ].
  injection E as <-. right. reflexivity.
Qed.

Lemma receivers_bounded_step e r r' :
  Inv r -> receivers_bounded r -> step e r = Next r' -> receivers_bounded r'.
Proof.
  intros I P H w c E.
  pose proof (step_mono e r r' I H) as (_ & _ & Hd).
  destruct (receive_origin e r r' w c H E) as [E0| ->]; [|lia].
  specialize (P w c E0). lia.
Qed.

Lemma receivers_bounded_reachable r : reachable r -> receivers_bounded r.
Proof.
  intros [sch E].
  eapply (exec_invariant receivers_bounded receivers_bounded_step);
    [apply Inv_new | | exact E].
  intros w c H. destruct w; discriminate.
Qed.

(** X3. Channel discipline.  In every reachable state the heap holds the
    channels [0 .. r.done], each of capacity one and empty (nothing is ever
    sent on a completion channel); a channel is closed exactly when [r.done]
    has moved past it or, for the current one, while the worker stands
    between [close(r.done)] and the [make] that replaces it. *)
Theorem channel_discipline (r : Rescheduler) :
  reachable r ->
  length (chans r) = S (done r) /\
  forall c ch, chans r !! c = Some ch ->
    ch_cap ch = 1%nat /\ ch_len ch = 0%nat /\
    (ch_closed ch = true <->
     (c < done r)%nat \/ exists t, threads r !! t = Some (InThreadRun ThMake)).
Proof.
  intros HR. pose proof (capacity_one_reachable r HR) as Hcap.
  apply reachable_Inv in HR. destruct HR as [F [Hh Hc]].
  split; [exact Hh|]. intros c ch E.
  destruct (Hc c ch E) as (L & Hlt & Heq).
  split; [eapply Hcap; eassumption|]. split; [exact L|].
  assert (Hle : (c <= done r)%nat) by (apply lookup_lt_Some in E; lia).
  split.
  - intros Hcl. destruct (decide (c = done r)) as [Hd|Hd]; [|left; lia].
    right. apply occ_pos. apply Heq; [exact Hd | exact Hcl].
  - intros [Hl|[t Ht]]; [apply Hlt; exact Hl|].
    destruct (decide (c = done r)) as [Hd|Hd]; [|apply Hlt; lia].
    apply Heq; [exact Hd|]. pose proof (occ_lookup _ _ _ Ht). unfold nT. lia.
Qed.

Lemma channel_discipline_witness :
  reachable signalling /\
  length (chans signalling) = S (done signalling) /\
  forall c ch, chans signalling !! c = Some ch ->
    ch_cap ch = 1%nat /\ ch_len ch = 0%nat /\
    (ch_closed ch = true <->
     (c < done signalling)%nat \/
     exists t, threads signalling !! t = Some (InThreadRun ThMake)).
Proof.
  split; [exact signalling_reachable|].
  apply (channel_discipline signalling). exact signalling_reachable.
Defined.

(** X4. The receive of [Wait].  A goroutine that has read [r.done] and
    receives from channel [c] holds a channel of the heap; it is suspended as
    long as [c] is the current channel and open, and it can return, changing
    nothing but its own position, as soon as [r.done] has moved past [c] or
    the worker stands between [close] and [make].  So the end of a cycle
    releases every goroutine that read [r.done] during that cycle, however
    late it is scheduled. *)
Theorem Wait_receive (r : Rescheduler) (w c : nat) :
  reachable r -> threads r !! w = Some (InWait (WaitRecv c)) ->
  (c <= done r)%nat /\
  ((c < done r)%nat \/ (0 < nT r ThMake)%nat ->
   step (Step w) r = Next (goto w Returned r)) /\
  (c = done r -> nT r ThMake = 0%nat -> step (Step w) r = Blocked).
Proof.
  intros HR Hw. pose proof (receivers_bounded_reachable r HR w c Hw) as Hle.
  apply reachable_Inv in HR. destruct HR as [F [Hh Hc]].
  split; [exact Hle|].
  destruct (lookup_lt_is_Some_2 (chans r) c) as [ch E]; [lia|].
  destruct (Hc c ch E) as (L & Hlt & Heq).
  cbn [step]. rewrite Hw. cbn [Wait]. rewrite E, L. split.
  - intros Hs. assert (Hcl : ch_closed ch = true).
    { destruct (decide (c = done r)) as [Hd|Hd]; [|apply Hlt; lia].
      apply Heq; [exact Hd|]. destruct Hs; lia. }
    rewrite Hcl. reflexivity.
  - intros Hd Hm. destruct (ch_closed ch) eqn:Hcl; [|reflexivity].
    assert (0 < nT r ThMake)%nat by (apply Heq; [exact Hd | reflexivity]). lia.
Qed.

Lemma Wait_receive_witness :
  threads receiving_on_fresh !! 0%nat = Some (InWait (WaitRecv 0)) /\
  (0 <= done receiving_on_fresh)%nat /\
  ((0 < done receiving_on_fresh)%nat \/ (0 < nT receiving_on_fresh ThMake)%nat ->
   step (Step 0) receiving_on_fresh = Next (goto 0 Returned receiving_on_fresh)) /\
  (0%nat = done receiving_on_fresh -> nT receiving_on_fresh ThMake = 0%nat ->
   step (Step 0) receiving_on_fresh = Blocked).
Proof.
  split; [reflexivity|].
  apply (Wait_receive receiving_on_fresh 0 0); [|reflexivity].
  exists (CallWait :: steps 0 1). reflexivity.
Defined.

(** ** [Wait] and completion signals *)

Lemma signal_seen_step d w e r r' :
  Inv r -> signal_seen d w r -> step e r = Next r' -> signal_seen d w r'.
Proof.
  intros I (Hd0 & Hm) H.
  pose proof (step_mono e r r' I H) as (_ & _ & Hd).
  split; [lia|]. destruct I as [F [Hh Hc]].
  destruct (decide (e = Step w)) as [->|Hne].
  - step_inv H; rewrite ?Ht in Hm; cbv beta iota in Hm; try contradiction.
    all: self_lookup.
    + lia.
    + match goal with E : chans r !! _ = Some ?c |- _ =>
        destruct (Hc _ _ E) as (_ & Hlt & Heq) end.
      unfold nT in *; fields; census_rw.
      destruct (decide (c = done r)) as [->|]; [|left; lia].
      right. apply Heq; auto.
    + match goal with E : chans r !! _ = Some ?c |- _ =>
        destruct (Hc _ _ E) as (L & _ & _); congruence end.
  - destruct (threads r !! w) as [g|] eqn:Ew; [|contradiction].
    rewrite (step_other r r' e w H Hne) by (eapply lookup_lt_Some; eassumption).
    rewrite Ew. destruct g as [[]|[]|[|c]|]; auto; [lia|].
    step_inv H; fields; unfold nT in *; fields; census_rw; try exact Hm.
    all: lia.
Qed.

(** X5. [Wait] returns only on a completion signal.  Whatever the state in
    which a [Wait] call begins, when it has returned the channel that
    [r.done] referred to at the beginning of the call has been closed: either
    the cycle that was under way has ended since, or the call began while the
    worker stood between [close] and [make]. *)
Theorem Wait_returns_on_signal (r r' : Rescheduler) (sch : list event) :
  reachable r -> exec (CallWait :: sch) r = Some r' ->
  threads r' !! length (threads r) = Some Returned ->
  exists ch, chans r' !! done r = Some ch /\ ch_closed ch = true.
Proof.
  intros HR E Hw. apply reachable_Inv in HR. cbn [exec step] in E.
  assert (I2 : Inv (spawn (InWait WaitRead) r))
    by (eapply (Inv_step CallWait); [exact HR | reflexivity]).
  assert (S0 : signal_seen (done r) (length (threads r)) (spawn (InWait WaitRead) r)).
  { split; [fields; lia|]. fields. rewrite lookup_spawned. exact I. }
  pose proof (exec_invariant (signal_seen (done r) (length (threads r)))
                (fun e => signal_seen_step _ _ e) sch _ r' I2 S0 E) as (Hd & W).
  rewrite Hw in W.
  pose proof (Inv_exec sch _ r' I2 E) as [_ [Hh HC]].
  destruct (lookup_lt_is_Some_2 (chans r') (done r)) as [ch Ech]; [lia|].
  exists ch. split; [exact Ech|].
  destruct (HC _ _ Ech) as (_ & Hlt & Heq).
  destruct W as [W|W]; [apply Hlt; exact W|].
  destruct (decide (done r = done r')) as [Hdd|]; [apply Heq; auto | apply Hlt; lia].
Qed.

Lemma Wait_returns_on_signal_witness :
  exec (CallWait :: wait_through_cycle) first_run_returned = Some after_first_cycle /\
  exists ch, chans after_first_cycle !! done first_run_returned = Some ch /\
             ch_closed ch = true.
Proof.
  split; [reflexivity|].
  apply (Wait_returns_on_signal first_run_returned after_first_cycle wait_through_cycle);
    [exact first_run_returned_reachable | reflexivity | reflexivity].
Defined.

(** ** Executions and requests *)

Lemma budget_step e r r' :
  FlagInv r -> step e r = Next r' ->
  (budget r' <= budget r + calls_Run [e])%nat.
Proof.
  intros F H. unfold budget.
  step_inv H; cbn [calls_Run].
  all: try (pose proof (occ_lookup _ _ _ Ht)).
  all: flag_cases F; try discriminate.
  all: census_goal; lia.
Qed.

Lemma budget_exec sch : forall r r',
  Inv r -> exec sch r = Some r' -> (budget r' <= budget r + calls_Run sch)%nat.
Proof.
  induction sch as [|e sch IH]; intros r r' I H.
  - injection H as <-. simpl. lia.
  - cbn [exec] in H. destruct (step e r) as [r1| |] eqn:E; try discriminate.
    pose proof (budget_step e r r1 (proj1 I) E) as B1.
    pose proof (IH r1 r' (Inv_step _ _ _ I E) H) as B2.
    change (e :: sch) with ([e] ++ sch). rewrite calls_Run_app. lia.
Qed.

Lemma cycles_bounded_step e r r' :
  Inv r -> cycles_bounded r -> step e r = Next r' -> cycles_bounded r'.
Proof.
  intros [F [Hh _]] C H. unfold cycles_bounded in *.
  step_inv H.
  all: try (pose proof (occ_lookup _ _ _ Ht)).
  all: census_goal; lia.
Qed.

Lemma called_step e r r' :
  Inv r -> called r -> step e r = Next r' -> called r'.
Proof.
  intros [F [Hh _]] C H. unfold called in *.
  step_inv H.
  all: try (pose proof (occ_lookup _ _ _ Ht)).
  all: flag_cases F; try discriminate.
  all: census_goal; lia.
Qed.

Lemma called_exec sch : forall r r',
  Inv r -> (1 <= calls_Run sch)%nat -> exec sch r = Some r' -> called r'.
Proof.
  induction sch as [|e sch IH]; simpl; intros r r' I Hc E; [lia|].
  destruct (step e r) as [r1| |] eqn:E1; try discriminate.
  pose proof (Inv_step _ _ _ I E1) as I1.
  destruct e as [| |t].
  - eapply (exec_invariant called (fun e => called_step e)); [exact I1 | | exact E].
    injection E1 as <-. left. unfold in_Run, nR, nT. fields. census_rw. lia.
  - eapply IH; [exact I1 | exact Hc | exact E].
  - eapply IH; [exact I1 | exact Hc | exact E].
Qed.

(** X6. Accounting.  On an instance created by [NewRescheduler], after any
    schedule: completed cycles do not exceed finished executions, which do
    not exceed started executions, which do not exceed the [Run] calls
    made: the work function is never executed more often than it was
    requested, and every completion signal follows an execution.  When
    nobody is inside [Run] or [threadRun] any more, every started execution
    has finished, and if at least one call was made then at least one
    execution and one cycle have completed. *)
Theorem accounting (sch : list event) (r : Rescheduler) :
  exec sch NewRescheduler = Some r ->
  (done r <= finished r <= started r)%nat /\
  (started r <= calls_Run sch)%nat /\
  (quiescent r ->
   started r = finished r /\
   ((1 <= calls_Run sch)%nat -> (1 <= done r)%nat /\ (1 <= finished r)%nat)).
Proof.
  intros E. pose proof (Inv_exec sch _ r Inv_new E) as I.
  pose proof (budget_exec sch _ r Inv_new E) as B.
  assert (C : cycles_bounded r).
  { eapply (exec_invariant cycles_bounded (fun e => cycles_bounded_step e));
      [apply Inv_new | | exact E].
    unfold cycles_bounded. cbn. lia. }
  change (budget NewRescheduler) with 0%nat in B.
  pose proof (inv_calls _ (proj1 I)) as Hcalls.
  unfold budget in B. unfold cycles_bounded in C.
  split; [lia|]. split; [lia|].
  intros Q. destruct (quiescent_idle r (proj1 I) Q) as [Hidle _].
  destruct Q as [Q1 Q2]. unfold in_threadRun in Q2.
  split; [lia|]. intros Hn.
  pose proof (called_exec sch _ r Inv_new Hn E) as [K|[K|K]]; [lia | | lia].
  unfold IDLE in Hidle. congruence.
Qed.

Lemma accounting_witness :
  exec run_and_wait NewRescheduler = Some after_first_cycle /\
  (done after_first_cycle <= finished after_first_cycle <= started after_first_cycle)%nat /\
  (started after_first_cycle <= calls_Run run_and_wait)%nat /\
  (quiescent after_first_cycle ->
   started after_first_cycle = finished after_first_cycle /\
   ((1 <= calls_Run run_and_wait)%nat ->
    (1 <= done after_first_cycle)%nat /\ (1 <= finished after_first_cycle)%nat)).
Proof.
  split; [reflexivity|].
  apply (accounting run_and_wait after_first_cycle). reflexivity.
Defined.

(** ** Bounded work *)

Lemma potential_step e r r' :
  FlagInv r -> step e r = Next r' ->
  (is_work e r + potential r' <= potential r + 13 * calls_Run [e])%nat.
Proof.
  intros F H. destruct e as [| |t].
  - injection H as <-. cbn [is_work calls_Run]. unfold potential, nR, nT.
    fields. census_rw. lia.
  - injection H as <-. cbn [is_work calls_Run]. unfold potential, nR, nT.
    fields. census_rw. lia.
  - cbn [is_work calls_Run].
    destruct (threads r !! t) as [g|] eqn:Ht;
      [|cbn [step] in H; rewrite Ht in H; discriminate].
    destruct (working g) eqn:Hw.
    + pose proof (potential_decreases r r' t g F Ht Hw H). lia.
    + destruct g as [| |p|]; try discriminate Hw.
      * cbn [step] in H. rewrite Ht in H.
        enough (potential r' = potential r) by lia.
        destruct p as [|c]; cbn [Wait] in H; step_cases H;
          unfold potential, nR, nT; fields; census_rw; reflexivity.
      * cbn [step] in H. rewrite Ht in H. discriminate.
Qed.

(** X7. The worker terminates.  Along every schedule from a reachable state,
    the number of steps taken by goroutines inside [Run] and [threadRun],
    plus the potential of the final state, is at most the potential of the
    initial state plus thirteen per [Run] call of the schedule: the worker's
    loop cannot go on without new requests, and each request costs a bounded
    number of steps. *)
Theorem work_bounded (r r' : Rescheduler) (sch : list event) :
  reachable r -> exec sch r = Some r' ->
  (work_steps sch r + potential r' <= potential r + 13 * calls_Run sch)%nat.
Proof.
  intros HR. apply reachable_Inv in HR. revert r HR.
  induction sch as [|e sch IH]; intros r I H.
  - injection H as <-. simpl. lia.
  - cbn [exec work_steps] in *.
    destruct (step e r) as [r1| |] eqn:E; try discriminate.
    pose proof (potential_step e r r1 (proj1 I) E) as B1.
    pose proof (IH r1 (Inv_step _ _ _ I E) H) as B2.
    change (e :: sch) with ([e] ++ sch). rewrite calls_Run_app. lia.
Qed.

Lemma work_bounded_witness :
  exec (steps 0 5) call_issued = Some first_run_returned /\
  (work_steps (steps 0 5) call_issued + potential first_run_returned
   <= potential call_issued + 13 * calls_Run (steps 0 5))%nat.
Proof.
  split; [reflexivity|].
  apply (work_bounded call_issued first_run_returned (steps 0 5));
    [exact call_issued_reachable | reflexivity].
Defined.

(** ** A single request *)

Lemma lone_run_step n d e r r' :
  Inv r -> lone_run n d r -> e <> CallRun -> step e r = Next r' -> lone_run n d r'.
Proof.
  intros [F [Hh _]] L Hne H. unfold lone_run, RUNNING_WITH_RERUN_PENDING in *.
  step_inv H; try congruence.
  all: try (pose proof (occ_lookup _ _ _ Ht)).
  all: flag_cases F; try discriminate.
  all: census_goal; lia.
Qed.

Lemma lone_run_call r :
  quiescent r -> FlagInv r ->
  lone_run (started r + 1) (done r) (spawn (InRun RunLock) r).
Proof.
  intros Q F. destruct (quiescent_idle r F Q) as [Hi _]. destruct Q as [Q1 Q2].
  unfold lone_run, RUNNING_WITH_RERUN_PENDING, IDLE in *.
  flag_cases F; try discriminate; census_goal; lia.
Qed.

Lemma lone_run_counts r sch r' :
  Inv r -> quiescent r -> calls_Run sch = 0%nat ->
  exec (CallRun :: sch) r = Some r' -> quiescent r' ->
  started r' = (started r + 1)%nat /\ finished r' = (finished r + 1)%nat /\
  done r' = (done r + 1)%nat.
Proof.
  intros HR Q Hc E Q'.
  assert (I1 : Inv (spawn (InRun RunLock) r))
    by (eapply (Inv_step CallRun); [exact HR | reflexivity]).
  cbn [exec step] in E.
  pose proof (exec_invariant_no_Run (lone_run (started r + 1) (done r))
                (fun e => lone_run_step _ _ e) sch _ r' I1
                (lone_run_call r Q (proj1 HR)) Hc E) as (_ & _ & _ & Ls & Ld).
  pose proof (Inv_exec sch _ r' I1 E) as [F' _].
  pose proof (inv_calls _ F') as C'. pose proof (inv_calls _ (proj1 HR)) as C.
  destruct Q as [Q1 Q2]. destruct Q' as [Q1' Q2'].
  unfold in_threadRun in *. lia.
Qed.

Lemma lone_run_drains r :
  Inv r -> quiescent r ->
  exists ts r', (length ts <= 13)%nat /\
    exec (CallRun :: (Step <$> ts)) r = Some r' /\ quiescent r'.
Proof.
  intros HR Q.
  assert (I1 : Inv (spawn (InRun RunLock) r))
    by (eapply (Inv_step CallRun); [exact HR | reflexivity]).
  destruct (drain 13 (spawn (InRun RunLock) r) I1) as (ts & r' & E & Hlen & Q' & _).
  { destruct Q as [Q1 Q2]. destruct (quiescent_idle r (proj1 HR) (conj Q1 Q2)) as [Hi _].
    unfold potential, in_Run, in_threadRun, nR, nT, IDLE in *. fields.
    rewrite Hi. census_rw. unfold R_RERUN. zeval. cbv iota. lia. }
  exists ts, r'. split; [exact Hlen|]. split; [|exact Q'].
  cbn [exec step]. exact E.
Qed.

(** X8. A single request gives a single run.  On an instance on which
    nobody is inside [Run] or [threadRun], one [Run] call, with no further
    call, leads to exactly one execution of the work function and one
    completion signal by the time the instance is quiescent again; and a
    continuation of at most thirteen steps of the caller and the worker gets
    there. *)
Theorem single_run (r : Rescheduler) :
  reachable r -> quiescent r ->
  (forall sch r', calls_Run sch = 0%nat ->
     exec (CallRun :: sch) r = Some r' -> quiescent r' ->
     started r' = (started r + 1)%nat /\ finished r' = (finished r + 1)%nat /\
     done r' = (done r + 1)%nat) /\
  (exists ts r', (length ts <= 13)%nat /\
     exec (CallRun :: (Step <$> ts)) r = Some r' /\ quiescent r').
Proof.
  intros HR Q. apply reachable_Inv in HR. split.
  - intros sch r' Hc E Q'. eapply lone_run_counts; eassumption.
  - apply lone_run_drains; assumption.
Qed.

Lemma single_run_witness :
  quiescent NewRescheduler /\
  (forall sch r', calls_Run sch = 0%nat ->
     exec (CallRun :: sch) NewRescheduler = Some r' -> quiescent r' ->
     started r' = (started NewRescheduler + 1)%nat /\
     finished r' = (finished NewRescheduler + 1)%nat /\
     done r' = (done NewRescheduler + 1)%nat) /\
  (exists ts r', (length ts <= 13)%nat /\
     exec (CallRun :: (Step <$> ts)) NewRescheduler = Some r' /\ quiescent r').
Proof.
  assert (Q : quiescent NewRescheduler) by (split; reflexivity).
  split; [exact Q|].
  apply (single_run NewRescheduler); [exact new_reachable | exact Q].
Defined.

(** X9. [Run] followed by [Wait] can block.  From an instance on which
    nobody is inside [Run] or [threadRun] there is a run in which a [Run]
    call returns and its whole cycle completes (one execution of the work
    function) before [Wait] is called; a [Wait] call made then does not
    return as long as no further [Run] call is made, although the work it
    would wait for is done. *)
Theorem Run_then_Wait_can_block (r : Rescheduler) :
  reachable r -> quiescent r ->
  exists ts r1,
    exec (CallRun :: (Step <$> ts)) r = Some r1 /\
    threads r1 !! length (threads r) = Some Returned /\
    finished r1 = (finished r + 1)%nat /\
    forall sch r2, calls_Run sch = 0%nat ->
      exec (CallWait :: sch) r1 = Some r2 ->
      threads r2 !! length (threads r1) <> Some Returned.
Proof.
  intros HR Q. apply reachable_Inv in HR.
  destruct (lone_run_drains r HR Q) as (ts & r1 & _ & E & Q1).
  destruct (lone_run_counts r _ r1 HR Q (calls_Run_steps ts) E Q1) as (_ & Hf & _).
  assert (I0 : Inv (spawn (InRun RunLock) r))
    by (eapply (Inv_step CallRun); [exact HR | reflexivity]).
  pose proof E as E'. cbn [exec step] in E'.
  pose proof (Inv_exec _ _ r1 I0 E') as I1.
  assert (R0 : requested (started r) (length (threads r)) (spawn (InRun RunLock) r)).
  { apply (requested_at_call (spawn (InRun RunLock) r)). fields. apply lookup_spawned. }
  pose proof (requested_exec _ _ _ _ r1 I0 R0 E') as R1.
  destruct (requested_quiescent _ _ _ I1 R1 Q1) as [Hret _].
  exists ts, r1. split; [exact E|]. split; [exact Hret|]. split; [exact Hf|].
  intros sch r2 Hc E2. eapply wait_blocks_without_Run; eassumption.
Qed.

Lemma Run_then_Wait_can_block_witness :
  quiescent NewRescheduler /\
  exists ts r1,
    exec (CallRun :: (Step <$> ts)) NewRescheduler = Some r1 /\
    threads r1 !! length (threads NewRescheduler) = Some Returned /\
    finished r1 = (finished NewRescheduler + 1)%nat /\
    forall sch r2, calls_Run sch = 0%nat ->
      exec (CallWait :: sch) r1 = Some r2 ->
      threads r2 !! length (threads r1) <> Some Returned.
Proof.
  assert (Q : quiescent NewRescheduler) by (split; reflexivity).
  split; [exact Q|].
  apply (Run_then_Wait_can_block NewRescheduler); [exact new_reachable | exact Q].
Defined.

(** ** While the work function runs *)

Lemma pinned_step r0 w e r r' :
  Inv r -> pinned r0 w r -> e <> Step w -> step e r = Next r' -> pinned r0 w r'.
Proof.
  intros I (Hw & Hs & Hf & Hd & Hch & Hwait) Hne H.
  pose proof (occ_lookup _ _ _ Hw) as Ow.
  assert (Hlt : (w < length (threads r))%nat) by (eapply lookup_lt_Some; eassumption).
  destruct (done_chan r I) as (ch & Ech & L & C).
  destruct I as [F [Hh Hc]].
  assert (Hopen : ch_closed ch = false).
  { destruct (ch_closed ch); [|reflexivity].
    assert (0 < nT r ThMake)%nat by (apply C; reflexivity).
    unfold nT in *. flag_cases F; lia. }
  split; [rewrite (step_other r r' e w H Hne Hlt); exact Hw|].
  assert (Hfields : started r' = started r /\ finished r' = finished r /\
                    done r' = done r /\ chans r' = chans r).
  { step_inv H; fields; auto.
    all: try (assert (t <> w) by congruence;
              pose proof (occ_lookup _ _ _ Ht);
              try pose proof (occ_lookup2 _ _ _ _ ltac:(eassumption) Ht Hw);
              exfalso; flag_cases F; lia).
    match goal with E : chans r !! _ = Some ?c, E' : ch_len ?c = S _ |- _ =>
      destruct (Hc _ _ E) as (L' & _ & _); congruence end. }
  destruct Hfields as (-> & -> & -> & ->).
  split; [exact Hs|]. split; [exact Hf|]. split; [exact Hd|]. split; [exact Hch|].
  intros t Ht0. specialize (Hwait t Ht0).
  destruct (decide (e = Step t)) as [->|Hnt].
  - exfalso. cbn [step] in H. rewrite Hwait in H. cbn [Wait] in H.
    rewrite <- Hd, Ech, L, Hopen in H. discriminate.
  - rewrite (step_other r r' e t H Hnt) by (eapply lookup_lt_Some; eassumption).
    exact Hwait.
Qed.

Lemma pinned_exec r0 w sch : forall r r',
  Inv r -> pinned r0 w r -> Forall (fun e => e <> Step w) sch ->
  exec sch r = Some r' -> pinned r0 w r'.
Proof.
  induction sch as [|e sch IH]; simpl; intros r r' I P Hall E.
  - congruence.
  - destruct (step e r) as [r1| |] eqn:E1; try discriminate.
    inversion Hall as [|e0 sch0 Hne Hall']; subst.
    eapply IH; [eapply Inv_step | eapply pinned_step | | ]; eassumption.
Qed.

(** X10. While the work function runs, the cycle stands still.  Let
    goroutine [w] be inside [call].  Along every schedule in which [w] does
    not step (the call does not return), however many [Run] and [Wait]
    calls are made: the instance stays non-idle, [w] remains the only
    goroutine inside [threadRun], no execution starts or finishes, [r.done]
    and the channels are untouched, and the goroutines receiving from the
    current channel stay suspended.  A work function that never returns
    therefore keeps the instance busy and its waiters blocked for ever. *)
Theorem call_in_progress (r r' : Rescheduler) (w : nat) (sch : list event) :
  reachable r -> threads r !! w = Some (InThreadRun ThInCall) ->
  Forall (fun e => e <> Step w) sch -> exec sch r = Some r' ->
  threads r' !! w = Some (InThreadRun ThInCall) /\
  me r' <> IDLE /\ in_threadRun r' = 1%nat /\
  started r' = started r /\ finished r' = finished r /\
  done r' = done r /\ chans r' = chans r /\
  forall t, threads r !! t = Some (InWait (WaitRecv (done r))) ->
            threads r' !! t = Some (InWait (WaitRecv (done r))).
Proof.
  intros HR Hw Hall E. apply reachable_Inv in HR.
  assert (P0 : pinned r w r) by (repeat split; auto).
  destruct (pinned_exec r w sch r r' HR P0 Hall E) as (Hw' & Hs & Hf & Hd & Hch & Hwait).
  pose proof (Inv_exec sch r r' HR E) as [F' _].
  pose proof (occ_lookup _ _ _ Hw') as Ow.
  split; [exact Hw'|].
  assert ((me r' <> 0) /\ in_threadRun r' = 1%nat) as [Hm Hin].
  { unfold in_threadRun, nT in *. flag_cases F'; (split; [lia|lia]). }
  auto 10.
Qed.

Lemma call_in_progress_witness :
  exec burst_of_two in_first_call = Some burst_noted /\
  threads burst_noted !! 1%nat = Some (InThreadRun ThInCall) /\
  me burst_noted <> IDLE /\ in_threadRun burst_noted = 1%nat /\
  started burst_noted = started in_first_call /\
  finished burst_noted = finished in_first_call /\
  done burst_noted = done in_first_call /\
  chans burst_noted = chans in_first_call /\
  forall t, threads in_first_call !! t = Some (InWait (WaitRecv (done in_first_call))) ->
            threads burst_noted !! t = Some (InWait (WaitRecv (done in_first_call))).
Proof.
  split; [reflexivity|].
  apply (call_in_progress in_first_call burst_noted 1 burst_of_two).
  - exact in_first_call_reachable.
  - reflexivity.
  - apply (bool_decide_unpack _). vm_compute. exact I.
  - reflexivity.
Defined.

(** ** [Wait] during the signal, executions to come, release of waiters *)

(** X11. [Wait] during the signal.  [Wait] reads [r.done] without holding
    the mutex.  If the call is made while the worker stands between
    [close(r.done)] and [r.done = make(...)], it reads the channel that has
    just been closed and returns at once, while the worker still holds the
    mutex and before the fresh channel is installed; nothing but the
    position of the calling goroutine changes. *)
Theorem Wait_during_signal (r : Rescheduler) (t : nat) :
  reachable r -> threads r !! t = Some (InThreadRun ThMake) ->
  exec (CallWait :: steps (length (threads r)) 2) r
  = Some (spawn Returned r) /\ lock r = true.
Proof.
  intros HR Ht. apply reachable_Inv in HR.
  destruct (done_chan r HR) as (ch & E & L & C). destruct HR as [F _].
  pose proof (occ_lookup _ _ _ Ht) as Ot.
  assert (Hcl : ch_closed ch = true) by (apply C; unfold nT; lia).
  split; [|eapply critical_locked; [exact F | exact Ht | reflexivity]].
  cbn [exec step steps replicate]. fields.
  rewrite lookup_spawned. cbn [Wait]. fields.
  rewrite list_lookup_insert_eq by (rewrite length_app; simpl; lia).
  cbn [Wait]. fields. rewrite E, L, Hcl. f_equal.
  unfold goto, spawn, set_threads. fields. f_equal.
  rewrite list_insert_insert_eq.
  rewrite insert_app_r_alt by lia. rewrite Nat.sub_diag. reflexivity.
Qed.

Lemma Wait_during_signal_witness :
  threads signalling !! 1%nat = Some (InThreadRun ThMake) /\
  exec (CallWait :: steps (length (threads signalling)) 2) signalling
  = Some (spawn Returned signalling) /\ lock signalling = true.
Proof.
  split; [reflexivity|].
  apply (Wait_during_signal signalling 1); [exact signalling_reachable | reflexivity].
Defined.

Lemma owed_bound r : FlagInv r -> (owed r <= 2)%nat.
Proof. intros F. unfold owed. flag_cases F; lia. Qed.

(** X12. Executions still to come.  In a reachable state in which nobody is
    inside [Run], if no further call is made, the number of executions that
    will have started when the instance is quiescent again is fixed by the
    state: none when no worker exists or the worker is past its last test of
    the rerun flag, one or two otherwise (two only for a worker that is
    about to enter the work function with a rerun already pending). *)
Theorem executions_to_come (r r' : Rescheduler) (sch : list event) :
  reachable r -> in_Run r = 0%nat ->
  calls_Run sch = 0%nat -> exec sch r = Some r' -> quiescent r' ->
  started r' = (started r + owed r)%nat /\ finished r' = started r' /\
  (owed r <= 2)%nat.
Proof.
  intros HR Hq Hc E Q'. apply reachable_Inv in HR.
  assert (S0 : settles (started r + owed r) r) by (split; [exact Hq | reflexivity]).
  pose proof (exec_invariant_no_Run (settles (started r + owed r))
                (fun e => settles_step _ e) sch r r' HR S0 Hc E) as [_ S'].
  pose proof (Inv_exec sch r r' HR E) as [F' _].
  destruct (quiescent_idle r' F' Q') as [Hi _]. destruct Q' as [_ Q2].
  pose proof (inv_calls _ F') as C'. pose proof (owed_bound r (proj1 HR)) as B.
  split; [|split; [|exact B]].
  - clear B. generalize dependent (started r + owed r)%nat. intros n _ S'.
    unfold owed, in_threadRun, IDLE in *.
    rewrite Hi in S'. unfold R_RERUN in S'. zeval. cbv iota in S'. lia.
  - unfold in_threadRun in Q2. lia.
Qed.

Lemma executions_to_come_witness :
  exec (steps 1 13) burst_noted = Some after_burst /\
  started after_burst = (started burst_noted + owed burst_noted)%nat /\
  finished after_burst = started after_burst /\
  (owed burst_noted <= 2)%nat.
Proof.
  split; [reflexivity|].
  apply (executions_to_come burst_noted after_burst (steps 1 13)).
  - exists (first_run ++ burst_of_two). reflexivity.
  - reflexivity.
  - reflexivity.
  - reflexivity.
  - split; reflexivity.
Defined.

Lemma receiver_released r w c :
  Inv r -> threads r !! w = Some (InWait (WaitRecv c)) -> (c <= done r)%nat ->
  me r <> IDLE \/ (0 < in_Run r)%nat ->
  exists ts r', (length ts <= potential r + 1)%nat /\
    exec (Step <$> ts) r = Some r' /\ threads r' !! w = Some Returned.
Proof.
  intros I Hw Hle Hact.
  assert (P : cycle_pending c r).
  { split; [exact Hle|]. destruct (decide (c = done r)) as [Hd|]; [|left; lia].
    right. destruct I as [F _]. unfold IDLE in Hact. unfold in_Run in *.
    flag_cases F; lia. }
  destruct (drain (potential r) r I (le_n _)) as (ts & r1 & E & Hlen & Q1 & Hwait).
  pose proof (Inv_exec _ r r1 I E) as I1.
  pose proof (exec_invariant (cycle_pending c)
                (fun e => cycle_pending_step c e) _ r r1 I P E) as [Hd1 P1].
  assert (Hlt : (c < done r1)%nat).
  { destruct P1 as [P1|P1]; [exact P1|].
    destruct Q1 as [Q11 Q12]. unfold in_threadRun in Q12. lia. }
  pose proof (Hwait _ _ Hw) as Hw1.
  destruct I1 as [F1 [Hh1 Hc1]].
  destruct (lookup_lt_is_Some_2 (chans r1) c) as [ch Ech]; [lia|].
  destruct (Hc1 _ _ Ech) as (L & Hcl & _). specialize (Hcl Hlt).
  exists (ts ++ [w]), (goto w Returned r1).
  split; [rewrite length_app; simpl; lia|]. split.
  - rewrite fmap_app, exec_app, E. cbn [fmap list_fmap exec step].
    rewrite Hw1. cbn [Wait]. rewrite Ech, L, Hcl. reflexivity.
  - fields. apply list_lookup_insert_eq. eapply lookup_lt_Some; exact Hw1.
Qed.

(** X13. A waiter that arrives in time is released.  If a goroutine is
    inside [Wait] while a cycle is under way ([me] is not idle, or some
    goroutine is inside [Run]), then without any further call there is a
    continuation, no longer than the potential plus two steps, in which the
    cycle ends and the goroutine returns (the work function is assumed to
    return). *)
Theorem Wait_released (r : Rescheduler) (w : nat) (p : WaitPc) :
  reachable r -> threads r !! w = Some (InWait p) ->
  me r <> IDLE \/ (0 < in_Run r)%nat ->
  exists ts r', (length ts <= potential r + 2)%nat /\
    exec (Step <$> ts) r = Some r' /\ threads r' !! w = Some Returned.
Proof.
  intros HR Hw Hact. pose proof (receivers_bounded_reachable r HR) as RB.
  apply reachable_Inv in HR. destruct p as [|c].
  - assert (E0 : step (Step w) r = Next (goto w (InWait (WaitRecv (done r))) r)).
    { cbn [step]. rewrite Hw. reflexivity. }
    pose proof (Inv_step _ _ _ HR E0) as I0.
    destruct (receiver_released (goto w (InWait (WaitRecv (done r))) r) w (done r) I0)
      as (ts & r' & Hlen & E & Hret).
    + fields. apply list_lookup_insert_eq. eapply lookup_lt_Some; exact Hw.
    + fields. lia.
    + unfold in_Run, nR in *. fields. census_rw. exact Hact.
    + exists (w :: ts), r'. split.
      * assert (potential (goto w (InWait (WaitRecv (done r))) r) = potential r)
          by (unfold potential, nR, nT; fields; census_rw; reflexivity).
        simpl. lia.
      * split; [|exact Hret].
        change (exec (Step w :: (Step <$> ts)) r = Some r'). cbn [exec].
        rewrite E0. exact E.
  - destruct (receiver_released r w c HR Hw (RB w c Hw) Hact)
      as (ts & r' & Hlen & E & Hret).
    exists ts, r'. split; [lia|]. auto.
Qed.

Lemma Wait_released_witness :
  reachable receiving_in_cycle /\
  exists ts r', (length ts <= potential receiving_in_cycle + 2)%nat /\
    exec (Step <$> ts) receiving_in_cycle = Some r' /\
    threads r' !! 2%nat = Some Returned.
Proof.
  assert (HR : reachable receiving_in_cycle)
    by (exists (CallRun :: steps 0 5 ++ CallWait :: steps 2 1); reflexivity).
  split; [exact HR|].
  apply (Wait_released receiving_in_cycle 2 (WaitRecv 0) HR); [reflexivity|].
  left. simpl. unfold IDLE. lia.
Defined.
